(** * Mini-Games: Connect Four, Tic-Tac-Toe and the calculator

    A shallow embedding of the game logic of [connect-four.py],
    [tic-tac-toe.py] and [calculator.py], and the properties of the
    specification that are about it.  Each program lives in a module of its
    own, named after the Python class it embeds.  Tk widgets are not
    modelled; what a handler does to the user interface (redraws, message
    boxes) is returned as a list of [ui] actions next to the new state. *)

From Stdlib Require Import ZArith List String Ascii Bool Lia ZifyBool.
From Stdlib Require Import DecimalString.
From Stdlib Require DecimalZ DecimalPos.
From stdpp Require Import base tactics option list.
Import ListNotations.

Local Open Scope Z_scope.

(** ** Python helpers shared by the three programs *)

(** [range(n)] *)
Definition py_range (n : Z) : list Z := map Z.of_nat (seq 0 (Z.to_nat n)).

(** [range(n - 1, -1, -1)] *)
Fixpoint range_down_nat (n : nat) : list Z :=
  match n with
  | O => []
  | S k => Z.of_nat k :: range_down_nat k
  end.

Definition py_range_down (n : Z) : list Z := range_down_nat (Z.to_nat n).

(** A grid is a list of rows.  [grid_get g r c] is [g[r][c]] for indices
    inside the grid; every access of the programs is either guarded by a
    bounds test or made with indices that come from [range], so the default
    is never what a well-formed grid returns (see [grid_get_lookup]). *)
Section Grid.
Context {A : Type}.

Definition grid_get (dflt : A) (g : list (list A)) (r c : Z) : A :=
  default dflt (row ← g !! Z.to_nat r; row !! Z.to_nat c).

(** [g[r][c] = v] *)
Definition grid_set (g : list (list A)) (r c : Z) (v : A) : list (list A) :=
  alter (λ row, <[Z.to_nat c := v]> row) (Z.to_nat r) g.

Definition grid_wf (rows cols : Z) (g : list (list A)) : Prop :=
  length g = Z.to_nat rows ∧ Forall (λ row, length row = Z.to_nat cols) g.
End Grid.

(** Counting the cells of a grid that pass a test. *)
Fixpoint count_if {A : Type} (f : A → bool) (l : list A) : nat :=
  match l with
  | [] => 0
  | x :: l' => (if f x then 1 else 0) + count_if f l'
  end.

Definition grid_count {A : Type} (f : A → bool) (g : list (list A)) : nat :=
  list_sum (map (count_if f) g).

(** The user-interface actions a handler performs, in order. *)
Inductive ui : Type :=
  | DrawBoard
  | TurnLabel
  | ShowInfo (title message : string)
  | ButtonText (row col : Z) (text : string)
  | Highlight (cells : list (Z * Z)).

Module ConnectFour.

Definition ROWS : Z := 6.
Definition COLS : Z := 7.
Definition CELL : Z := 90.

(** [RED = "red"], [YELLOW = "gold"]; a cell holds [None] or a colour. *)
Inductive color : Type := RED | YELLOW.

Definition color_eqb (a b : color) : bool :=
  match a, b with
  | RED, RED | YELLOW, YELLOW => true
  | _, _ => false
  end.

Definition cell : Type := option color.
Definition coord : Type := (Z * Z)%type.

(** The instance fields of the window object that carry game state. *)
Record game : Type := Game {
  board : list (list cell);
  current_player : color;
  game_over : bool;
  win_coords : list coord;
  hover_col : option Z
}.

Definition get (b : list (list cell)) (r c : Z) : cell := grid_get None b r c.

(** [__init__], game-state part *)
Definition empty_board : list (list cell) :=
  replicate (Z.to_nat ROWS) (replicate (Z.to_nat COLS) None).

Definition init : game :=
  {| board := empty_board; current_player := RED; game_over := false;
     win_coords := []; hover_col := None |}.

(** [0 <= r < self.ROWS and 0 <= c < self.COLS] *)
Definition in_bounds (r c : Z) : bool :=
  (0 <=? r) && (r <? ROWS) && (0 <=? c) && (c <? COLS).

(** [self.board[r][c] == color] *)
Definition cell_is (b : list (list cell)) (r c : Z) (col : color) : bool :=
  match get b r c with
  | Some x => color_eqb x col
  | None => false
  end.

(** The [while] loops of [_check_winner]:
    [while in_bounds and board[r][c] == color: coords.append((r, c)); r += sr; c += sc].
    [None] when the fuel runs out before the loop condition fails. *)
Fixpoint walk (fuel : nat) (b : list (list cell)) (col : color)
    (sr sc r c : Z) (coords : list coord) : option (list coord) :=
  match fuel with
  | O => None
  | S fuel' =>
      if in_bounds r c && cell_is b r c col
      then walk fuel' b col sr sc (r + sr) (c + sc) (coords ++ [(r, c)])
      else Some coords
  end.

Definition directions : list (Z * Z) := [(0, 1); (1, 0); (1, 1); (1, -1)].

(** The [for dr, dc in directions] loop of [_check_winner] with its early
    [return color, coords]; the final [return None, []]. *)
Fixpoint scan_directions (fuel : nat) (b : list (list cell)) (col : color)
    (row c0 : Z) (dirs : list (Z * Z)) : option (option color * list coord) :=
  match dirs with
  | [] => Some (None, [])
  | (dr, dc) :: rest =>
      coords ← walk fuel b col dr dc (row + dr) (c0 + dc) [(row, c0)];
      coords ← walk fuel b col (- dr) (- dc) (row - dr) (c0 - dc) coords;
      if (4 <=? length coords)%nat
      then Some (Some col, coords)
      else scan_directions fuel b col row c0 rest
  end.

(** Iterations granted to each [while] loop. *)
Definition FUEL : nat := 8.

Definition _check_winner (self : game) (row col : Z)
    : option (option color * list coord) :=
  scan_directions FUEL (board self) (current_player self) row col directions.

(** [all(self.board[0][c] is not None for c in range(self.COLS))] *)
Definition _is_board_full (self : game) : bool :=
  forallb (λ c, bool_decide (get (board self) 0 c ≠ None)) (py_range COLS).


(** [self.YELLOW if self.current_player == self.RED else self.RED] *)
Definition other_player (p : color) : color :=
  match p with RED => YELLOW | YELLOW => RED end.

(** ['Red' if winner == self.RED else 'Yellow'] *)
Definition color_name (p : color) : string :=
  match p with RED => "Red"%string | YELLOW => "Yellow"%string end.

(** The scan of [_on_click] for the lowest empty row:
    [for row in ...: if not self.board[row][col]: target_row = row; break]. *)
Fixpoint scan_rows (b : list (list cell)) (col : Z) (rows : list Z) : option Z :=
  match rows with
  | [] => None
  | row :: rest =>
      match get b row col with
      | None => Some row
      | Some _ => scan_rows b col rest
      end
  end.

Definition find_target_row (b : list (list cell)) (col : Z) : option Z :=
  scan_rows b col (py_range_down ROWS).

(** The drop of a disc, as [_on_click] does it once the column is known:
    the scan for the target row, the "column is full" exit ([None] here) and
    the assignment [self.board[target_row][col] = self.current_player]. *)
Definition drop (b : list (list cell)) (player : color) (col : Z)
    : option (list (list cell) * coord) :=
  target_row ← find_target_row b col;
  Some (grid_set b target_row col (Some player), (target_row, col)).

Definition set_board (self : game) (b : list (list cell)) : game :=
  {| board := b; current_player := current_player self;
     game_over := game_over self; win_coords := win_coords self;
     hover_col := hover_col self |}.

Definition set_current_player (self : game) (p : color) : game :=
  {| board := board self; current_player := p;
     game_over := game_over self; win_coords := win_coords self;
     hover_col := hover_col self |}.

Definition set_game_over (self : game) (g : bool) : game :=
  {| board := board self; current_player := current_player self;
     game_over := g; win_coords := win_coords self;
     hover_col := hover_col self |}.

Definition set_win_coords (self : game) (w : list coord) : game :=
  {| board := board self; current_player := current_player self;
     game_over := game_over self; win_coords := w;
     hover_col := hover_col self |}.

Definition set_hover_col (self : game) (h : option Z) : game :=
  {| board := board self; current_player := current_player self;
     game_over := game_over self; win_coords := win_coords self;
     hover_col := h |}.

(** [_on_click(event)], with [x] for [event.x].  The result is [None] only
    if a loop of [_check_winner] runs out of fuel. *)
Definition _on_click (self : game) (x : Z) : option (game * list ui) :=
  if game_over self then Some (self, [])
  else
    let col := x / CELL in
    if negb ((0 <=? col) && (col <? COLS)) then Some (self, [])
    else
      match drop (board self) (current_player self) col with
      | None =>
          Some (self, [ShowInfo "Column Full" "Try a different column."])
      | Some (b, (target_row, _)) =>
          let self := set_board self b in
          '(winner, coords) ← _check_winner self target_row col;
          match winner with
          | Some w =>
              let self := set_win_coords (set_game_over self true) coords in
              Some (self, [DrawBoard;
                           ShowInfo "Game Over" (color_name w ++ " player wins!")])
          | None =>
              if _is_board_full self
              then Some (set_game_over self true,
                         [DrawBoard; ShowInfo "Game Over" "It's a draw!"])
              else Some (set_current_player self
                           (other_player (current_player self)),
                         [DrawBoard])
          end
      end.

(** [reset_game()] *)
Definition reset_game (self : game) : game * list ui :=
  ({| board := empty_board; current_player := RED; game_over := false;
      win_coords := []; hover_col := None |},
   [TurnLabel; DrawBoard]).

(** [_on_motion(event)] *)
Definition _on_motion (self : game) (x : Z) : game * list ui :=
  if game_over self then (set_hover_col self None, [DrawBoard])
  else
    let col := x / CELL in
    if (0 <=? col) && (col <? COLS)
    then
      if bool_decide (Some col ≠ hover_col self)
      then (set_hover_col self (Some col), [DrawBoard])
      else (self, [])
    else
      if bool_decide (hover_col self ≠ None)
      then (set_hover_col self None, [DrawBoard])
      else (self, []).

(** [event.char.lower() == 'r'] *)
Definition is_reset_key (char : string) : bool :=
  String.eqb char "r" || String.eqb char "R".

(** [_on_key(event)] *)
Definition _on_key (self : game) (char : string) : game * list ui :=
  if is_reset_key char then reset_game self else (self, []).

(** What the window receives: the events bound in [_create_ui] and the
    "Reset Game" button. *)
Inductive event : Type :=
  | Click (x : Z)
  | Motion (x : Z)
  | Key (char : string)
  | ResetButton.

Definition is_reset (e : event) : bool :=
  match e with
  | ResetButton => true
  | Key char => is_reset_key char
  | _ => false
  end.

Definition handle (self : game) (e : event) : option (game * list ui) :=
  match e with
  | Click x => _on_click self x
  | Motion x => Some (_on_motion self x)
  | Key char => Some (_on_key self char)
  | ResetButton => Some (reset_game self)
  end.

(** The event loop: each event is handled to completion before the next. *)
Fixpoint run (self : game) (es : list event) : option game :=
  match es with
  | [] => Some self
  | e :: es' => '(self', _) ← handle self e; run self' es'
  end.

(** The states the window can be in: those the event loop reaches from a
    fresh game. *)
Definition reachable (self : game) : Prop := ∃ es, run init es = Some self.

(** *** Vocabulary of the specification *)

(** A well-formed board: [ROWS] rows of [COLS] cells, as [__init__] and
    [reset_game] build it. *)
Definition board_wf (b : list (list cell)) : Prop := grid_wf ROWS COLS b.

(** The result of [checkWin]. *)
Inductive win_result : Type :=
  | NoWin
  | Won (player : color) (line : list coord).

Definition win_result_of (r : option color * list coord) : win_result :=
  match r with
  | (Some p, line) => Won p line
  | (None, _) => NoWin
  end.

(** [GameStatus], read off the two fields that encode it: a finished game
    with no winning line is a draw, and the winner of a won game is the
    player whose turn it still is. *)
Inductive game_status : Type :=
  | InProgress
  | StatusWon (player : color) (line : list coord)
  | Drawn.

Definition status (self : game) : game_status :=
  if game_over self
  then match win_coords self with
       | [] => Drawn
       | line => StatusWon (current_player self) line
       end
  else InProgress.

(** A cell of the board that belongs to [p]. *)
Definition owned (b : list (list cell)) (p : color) (rc : coord) : bool :=
  in_bounds rc.1 rc.2 && cell_is b rc.1 rc.2 p.

(** The [n] cells met from [(r, c)] on, in steps of [(sr, sc)]. *)
Definition ray (sr sc r c : Z) (n : nat) : list coord :=
  map (λ k, (r + Z.of_nat k * sr, c + Z.of_nat k * sc)) (seq 0 n).

(** [cells] is what a walk from [(r, c)] in steps of [(sr, sc)] collects:
    the cells of the ray, all owned by [p], up to the first cell that is off
    the board or not [p]'s. *)
Definition is_run (b : list (list cell)) (p : color) (sr sc r c : Z)
    (cells : list coord) : Prop :=
  ∃ n : nat,
    cells = ray sr sc r c n ∧
    Forall (λ rc, owned b p rc = true) cells ∧
    owned b p (r + Z.of_nat n * sr, c + Z.of_nat n * sc) = false.

(** The coordinate list of one direction pair: the origin cell, then the
    walk in the positive direction, then the walk in the negative one. *)
Definition is_line (b : list (list cell)) (p : color) (row col : Z)
    (d : Z * Z) (line : list coord) : Prop :=
  ∃ pos neg,
    is_run b p d.1 d.2 (row + d.1) (col + d.2) pos ∧
    is_run b p (- d.1) (- d.2) (row - d.1) (col - d.2) neg ∧
    line = (row, col) :: pos ++ neg.

(** The first line of at least four cells wins. *)
Fixpoint first_win (p : color) (lines : list (list coord)) : win_result :=
  match lines with
  | [] => NoWin
  | line :: rest =>
      if (4 <=? length line)%nat then Won p line else first_win p rest
  end.

(** The cells a walk collects, as a function: at most [n] cells. *)
Fixpoint run_cells (n : nat) (b : list (list cell)) (p : color)
    (sr sc r c : Z) : list coord :=
  match n with
  | O => []
  | S n' =>
      if owned b p (r, c)
      then (r, c) :: run_cells n' b p sr sc (r + sr) (c + sc)
      else []
  end.

Definition line_cells (b : list (list cell)) (p : color) (row col : Z)
    (d : Z * Z) : list coord :=
  (row, col) :: run_cells FUEL b p d.1 d.2 (row + d.1) (col + d.2)
             ++ run_cells FUEL b p (- d.1) (- d.2) (row - d.1) (col - d.2).

(** [checkWin(board, row, col, player)] in the words of the specification.
    No walk on the board collects [FUEL] cells, so [line_cells] is the
    whole coordinate list of its direction ([line_cells_is_line]). *)
Definition checkWin (b : list (list cell)) (row col : Z) (p : color)
    : win_result :=
  first_win p (map (line_cells b p row col) directions).

(** Horizontal mirroring: cell [(r, c)] goes to [(r, COLS - 1 - c)]. *)
Definition mirror (b : list (list cell)) : list (list cell) := reverse <$> b.

Definition mirror_coord (rc : coord) : coord := (rc.1, COLS - 1 - rc.2).

Definition mirror_result (w : win_result) : win_result :=
  match w with
  | NoWin => NoWin
  | Won p line => Won p (map mirror_coord line)
  end.

Definition is_win (w : win_result) : bool :=
  match w with NoWin => false | Won _ _ => true end.

(** Bottom-up fill: no disc has an empty cell below it. *)
Definition gravity (b : list (list cell)) : Prop :=
  ∀ r c, 0 ≤ r → r + 1 < ROWS → 0 ≤ c < COLS →
    get b r c ≠ None → get b (r + 1) c ≠ None.

(** A full column: every row of it holds a disc. *)
Definition column_full (b : list (list cell)) (col : Z) : Prop :=
  ∀ r, 0 ≤ r < ROWS → get b r col ≠ None.

(** The test of the specification's scenario: the same player is made to
    move again. *)
Definition force_turn (p : color) (self : game) : game := set_current_player self p.

Fixpoint drops_by (p : color) (x : Z) (n : nat) (self : game) : option game :=
  match n with
  | O => Some self
  | S n' => '(self', _) ← _on_click (force_turn p self) x; drops_by p x n' self'
  end.

(** A step [(sr, sc)] that takes a walk off the board in fewer than [FUEL]
    steps, wherever the walk starts. *)
Definition leaves_board (sr sc : Z) : Prop :=
  ∀ r c, ∃ k : nat, (k < FUEL)%nat ∧
    in_bounds (r + Z.of_nat k * sr) (c + Z.of_nat k * sc) = false.

(** *** Example games *)

(** A click in the middle of each of the given columns, in turn. *)
Definition clicks (cols : list Z) : list event :=
  map (λ c, Click (c * CELL + CELL / 2)) cols.

(** Thirteen moves after which RED's last disc, at [(3, 3)], sits on the
    crossing of two diagonals of four red discs. *)
Definition crossing_moves : list Z := [1; 2; 2; 2; 2; 4; 4; 4; 4; 3; 5; 3; 3].

Definition crossing : game := default init (run init (clicks crossing_moves)).

(** RED made to drop four discs in column 3 of a fresh game. *)
Definition column_three : game := default init (drops_by RED (3 * CELL) 4 init).

(** Six moves, all in column 0: the column is full and the game is on. *)
Definition stacked : game := default init (run init (clicks [0; 0; 0; 0; 0; 0])).

(** *** Four in a row *)

(** Four consecutive cells of [p], from [(r, c)] on in direction [d]. *)
Definition four_at (b : list (list cell)) (p : color) (r c : Z) (d : Z * Z)
    : Prop :=
  ∀ i, 0 ≤ i ≤ 3 → owned b p (r + i * d.1, c + i * d.2) = true.

(** Four consecutive cells of [p] in direction [d], of which [(row, col)]
    is one: the four start [k] steps before it. *)
Definition four_in_a_row (b : list (list cell)) (p : color) (row col : Z)
    (d : Z * Z) : Prop :=
  ∃ k, 0 ≤ k ≤ 3 ∧ four_at b p (row - k * d.1) (col - k * d.2) d.

(** No player has four in a row anywhere on the board: no four
    consecutive cells along a row (step [(0, 1)]), a column ([(1, 0)]), a
    diagonal down-right ([(1, 1)]) or a diagonal down-left ([(1, -1)]). *)
Definition no_four (b : list (list cell)) : Prop :=
  ∀ p r c d, d ∈ [(0, 1); (1, 0); (1, 1); (1, -1)] → ¬ four_at b p r c d.

(** What the event loop keeps true of the game.  While the game is on, and
    in a draw, no line is marked and nobody has four in a row; the game is
    a draw only on a full board; a won game marks a line of at least four
    cells through a disc of the winner. *)
Definition settled (self : game) : Prop :=
  if game_over self
  then (win_coords self = [] ∧ _is_board_full self = true
        ∧ no_four (board self))
       ∨ (∃ row col d,
            d ∈ directions
            ∧ owned (board self) (current_player self) (row, col) = true
            ∧ is_line (board self) (current_player self) row col d
                (win_coords self)
            ∧ (4 ≤ length (win_coords self))%nat)
  else win_coords self = [] ∧ _is_board_full self = false
       ∧ no_four (board self).

(** The discs of [p] on the board. *)
Definition is_disc (p : color) (x : cell) : bool :=
  match x with
  | Some q => color_eqb q p
  | None => false
  end.

Definition discs (p : color) (b : list (list cell)) : nat :=
  grid_count (is_disc p) b.

(** The player who moved last: the current player of a finished game (a
    win or a draw leaves the turn where it is), the other one while the
    game is on. *)
Definition last_mover (self : game) : color :=
  if game_over self then current_player self
  else other_player (current_player self).

(** Forty-two moves that fill the board without four in a row. *)
Definition drawn_moves : list Z :=
  [5; 4; 5; 0; 6; 2; 4; 5; 5; 0; 4; 1; 1; 0; 4; 5; 6; 5; 3; 1; 1;
   2; 2; 6; 2; 6; 6; 3; 6; 2; 0; 3; 0; 3; 3; 4; 3; 1; 4; 2; 1; 0].

Definition drawn : game := default init (run init (clicks drawn_moves)).

(** *** Drawing the board *)

Definition SLOT_MARGIN : Z := 8.
Definition DISC_MARGIN : Z := 14.
Definition BOARD_BG : string := "#0A3A8B".

(** [self.canvas_w], [self.canvas_h] *)
Definition canvas_w : Z := COLS * CELL.
Definition canvas_h : Z := ROWS * CELL.

(** The string a colour is: [RED = "red"], [YELLOW = "gold"]. *)
Definition color_value (p : color) : string :=
  match p with RED => "red"%string | YELLOW => "gold"%string end.

(** The items [_draw_board] creates on the canvas, with the options it
    gives them. *)
Inductive shape : Type :=
  | Rectangle (x1 y1 x2 y2 : Z) (fill stipple outline : string)
  | Oval (x1 y1 x2 y2 : Z) (fill : option string) (outline : string)
      (width : option Z).

Inductive canvas_action : Type :=
  | DeleteAll
  | Create (item : shape)
  | ConfigTurnLabel (text fg : string).

(** [_turn_text()] *)
Definition _turn_text (self : game) : string :=
  "Player's Turn: " ++ color_name (current_player self).

(** The white slot of a cell, the disc in it, and the outline of a
    winning disc. *)
Definition slot_oval (row col : Z) : shape :=
  let x1 := col * CELL in
  let y1 := row * CELL in
  let x2 := x1 + CELL in
  let y2 := y1 + CELL in
  Oval (x1 + SLOT_MARGIN) (y1 + SLOT_MARGIN) (x2 - SLOT_MARGIN)
    (y2 - SLOT_MARGIN) (Some "white"%string) BOARD_BG (Some 2).

Definition disc_oval (row col : Z) (p : color) : shape :=
  let x1 := col * CELL in
  let y1 := row * CELL in
  let x2 := x1 + CELL in
  let y2 := y1 + CELL in
  Oval (x1 + DISC_MARGIN) (y1 + DISC_MARGIN) (x2 - DISC_MARGIN)
    (y2 - DISC_MARGIN) (Some (color_value p)) (color_value p) None.

Definition win_oval (rc : coord) : shape :=
  let x1 := rc.2 * CELL in
  let y1 := rc.1 * CELL in
  let x2 := x1 + CELL in
  let y2 := y1 + CELL in
  Oval (x1 + DISC_MARGIN) (y1 + DISC_MARGIN) (x2 - DISC_MARGIN)
    (y2 - DISC_MARGIN) None "black" (Some 4).

(** [if self.hover_col is not None and not self.game_over: ...] *)
Definition draw_hover (self : game) : list shape :=
  match hover_col self with
  | Some h =>
      if negb (game_over self)
      then [Rectangle (h * CELL) 0 (h * CELL + CELL) canvas_h
              "#ffffff" "gray25" EmptyString]
      else []
  | None => []
  end.

(** The body of the two [for] loops over the cells. *)
Definition draw_cell (self : game) (row col : Z) : list shape :=
  slot_oval row col
  :: match get (board self) row col with
     | Some p => [disc_oval row col p]
     | None => []
     end.

(** [_draw_board()] *)
Definition _draw_board (self : game) : list canvas_action :=
  DeleteAll
  :: map Create
       (draw_hover self
        ++ flat_map (λ row, flat_map (draw_cell self row) (py_range COLS))
             (py_range ROWS)
        ++ map win_oval (win_coords self))
  ++ [ConfigTurnLabel (_turn_text self) (color_value (current_player self))].

(** A shape that lies on the canvas. *)
Definition on_canvas (item : shape) : Prop :=
  match item with
  | Rectangle x1 y1 x2 y2 _ _ _ | Oval x1 y1 x2 y2 _ _ _ =>
      0 ≤ x1 < x2 ∧ x2 ≤ canvas_w ∧ 0 ≤ y1 < y2 ∧ y2 ≤ canvas_h
  end.

End ConnectFour.

Module TicTacToe.

Definition SIZE : Z := 3.

(** [X = "X"], [O = "O"]; a square holds [None] or a marker. *)
Inductive mark : Type := X | O.

Definition mark_eqb (a b : mark) : bool :=
  match a, b with
  | X, X | O, O => true
  | _, _ => false
  end.

Definition mark_text (m : mark) : string :=
  match m with X => "X"%string | O => "O"%string end.

Definition coord : Type := (Z * Z)%type.

Record game : Type := Game {
  board : list (list (option mark));
  current_player : mark;
  game_over : bool
}.

Definition get (b : list (list (option mark))) (r c : Z) : option mark :=
  grid_get None b r c.

Definition empty_board : list (list (option mark)) :=
  replicate (Z.to_nat SIZE) (replicate (Z.to_nat SIZE) None).

Definition init : game :=
  {| board := empty_board; current_player := X; game_over := false |}.

(** What [_on_click] does, in order: user-interface actions and the calls
    of the two checks. *)
Inductive action : Type :=
  | Ui (u : ui)
  | CallCheckWinner
  | CallIsBoardFull.

(** [b[r0][c0] and all(b[r][c] == b[r0][c0] for (r, c) in cells)]: the test
    [_check_winner] makes on a row, a column or a diagonal, whose first
    cell is [(r0, c0)]. *)
Definition line_owner (b : list (list (option mark))) (cells : list coord)
    : option mark :=
  match cells with
  | [] => None
  | (r0, c0) :: _ =>
      match get b r0 c0 with
      | None => None
      | Some m =>
          if forallb (λ rc : coord,
                        match get b rc.1 rc.2 with
                        | Some m' => mark_eqb m' m
                        | None => false
                        end) cells
          then Some m else None
      end
  end.

(** The lines in the order [_check_winner] tests them: rows, columns, main
    diagonal, anti-diagonal. *)
Definition lines : list (list coord) :=
  map (λ r, map (λ c, (r, c)) (py_range SIZE)) (py_range SIZE)
  ++ map (λ c, map (λ r, (r, c)) (py_range SIZE)) (py_range SIZE)
  ++ [map (λ i, (i, i)) (py_range SIZE)]
  ++ [map (λ i, (i, SIZE - 1 - i)) (py_range SIZE)].

Fixpoint first_owned (b : list (list (option mark))) (ls : list (list coord))
    : option mark * list coord :=
  match ls with
  | [] => (None, [])
  | l :: rest =>
      match line_owner b l with
      | Some m => (Some m, l)
      | None => first_owned b rest
      end
  end.

Definition _check_winner (self : game) : option mark * list coord :=
  first_owned (board self) lines.

(** [all(self.board[r][c] is not None for r in range(SIZE) for c in range(SIZE))] *)
Definition _is_board_full (self : game) : bool :=
  forallb (λ r, forallb (λ c, bool_decide (get (board self) r c ≠ None))
                  (py_range SIZE))
    (py_range SIZE).

Definition other_player (p : mark) : mark :=
  match p with X => O | O => X end.

(** [_on_click(row, col)] *)
Definition _on_click (self : game) (row col : Z) : game * list action :=
  if game_over self then (self, [])
  else
    match get (board self) row col with
    | Some _ => (self, [])
    | None =>
        let self := {| board := grid_set (board self) row col
                                  (Some (current_player self));
                       current_player := current_player self;
                       game_over := game_over self |} in
        let placed := Ui (ButtonText row col (mark_text (current_player self))) in
        let '(winner, coords) := _check_winner self in
        match winner with
        | Some w =>
            ({| board := board self; current_player := current_player self;
                game_over := true |},
             [placed; CallCheckWinner; Ui (Highlight coords);
              Ui (ShowInfo "Game Over" ("Player " ++ mark_text w ++ " wins!"))])
        | None =>
            if _is_board_full self
            then ({| board := board self;
                     current_player := current_player self;
                     game_over := true |},
                  [placed; CallCheckWinner; CallIsBoardFull;
                   Ui (ShowInfo "Game Over" "It's a draw!")])
            else ({| board := board self;
                     current_player := other_player (current_player self);
                     game_over := game_over self |},
                  [placed; CallCheckWinner; CallIsBoardFull; Ui TurnLabel])
        end
    end.

(** [_turn_text()] *)
Definition _turn_text (self : game) : string :=
  "Player's Turn: " ++ mark_text (current_player self).

(** What [reset_game] does to the widgets, in order. *)
Inductive reset_ui : Type :=
  | ConfigButton (row col : Z) (text bg : string)
  | ConfigTurnLabel (text : string).

(** [reset_game()] *)
Definition reset_game (self : game) : game * list reset_ui :=
  let self := {| board := empty_board; current_player := X;
                 game_over := false |} in
  (self,
   flat_map (λ r, map (λ c, ConfigButton r c EmptyString "SystemButtonFace")
                    (py_range SIZE))
     (py_range SIZE)
   ++ [ConfigTurnLabel (_turn_text self)]).

(** [event.char.lower() == "r"] *)
Definition is_reset_key (char : string) : bool :=
  String.eqb char "r" || String.eqb char "R".

(** [_on_key(event)] *)
Definition _on_key (self : game) (char : string) : game * list reset_ui :=
  if is_reset_key char then reset_game self else (self, []).

(** What the window receives: the nine buttons of the grid, the keyboard
    and the "Reset Game" button. *)
Inductive event : Type :=
  | Click (row col : Z)
  | Key (char : string)
  | ResetButton.

Definition is_reset (e : event) : bool :=
  match e with
  | ResetButton => true
  | Key char => is_reset_key char
  | Click _ _ => false
  end.

(** The buttons of [_create_ui] call [_on_click] with a row and a column
    of [range(SIZE)]. *)
Definition on_board (e : event) : Prop :=
  match e with
  | Click row col => 0 ≤ row < SIZE ∧ 0 ≤ col < SIZE
  | _ => True
  end.

Definition handle (self : game) (e : event) : game :=
  match e with
  | Click row col => (_on_click self row col).1
  | Key char => (_on_key self char).1
  | ResetButton => (reset_game self).1
  end.

(** The event loop. *)
Fixpoint run (self : game) (es : list event) : game :=
  match es with
  | [] => self
  | e :: es' => run (handle self e) es'
  end.

Definition reachable (self : game) : Prop :=
  ∃ es, Forall on_board es ∧ run init es = self.

Definition board_wf (b : list (list (option mark))) : Prop :=
  grid_wf SIZE SIZE b.

(** Every cell of the line holds [m]. *)
Definition line_of (b : list (list (option mark))) (m : mark)
    (l : list coord) : Prop :=
  ∀ rc, rc ∈ l → get b rc.1 rc.2 = Some m.

(** The eight lines of three squares of the game: the three rows, the
    three columns, the main diagonal and the anti-diagonal. *)
Definition eight_lines : list (list coord) :=
  [[(0, 0); (0, 1); (0, 2)]; [(1, 0); (1, 1); (1, 2)]; [(2, 0); (2, 1); (2, 2)];
   [(0, 0); (1, 0); (2, 0)]; [(0, 1); (1, 1); (2, 1)]; [(0, 2); (1, 2); (2, 2)];
   [(0, 0); (1, 1); (2, 2)]; [(0, 2); (1, 1); (2, 0)]].

(** [m] has three in a row: a row, a column or a diagonal of its own. *)
Definition has_line (b : list (list (option mark))) (m : mark) : Prop :=
  ∃ l, l ∈ eight_lines ∧ line_of b m l.

(** The squares that hold [m]. *)
Definition is_mark (m : mark) (x : option mark) : bool :=
  match x with
  | Some m' => mark_eqb m' m
  | None => false
  end.

Definition marks (m : mark) (b : list (list (option mark))) : nat :=
  grid_count (is_mark m) b.

(** The player who moved last: the current player of a finished game, the
    other one while the game is on. *)
Definition last_mover (self : game) : mark :=
  if game_over self then current_player self
  else other_player (current_player self).

(** A game that X wins with the top row, and a game that fills the board
    with no line. *)
Definition clicks (cells : list coord) : list event :=
  map (λ rc : coord, Click rc.1 rc.2) cells.

Definition top_row_game : game :=
  run init (clicks [(0, 0); (1, 0); (0, 1); (1, 1); (0, 2)]).

Definition cat_game : game :=
  run init (clicks [(0, 0); (0, 1); (0, 2); (1, 1); (1, 0); (1, 2);
                    (2, 1); (2, 0); (2, 2)]).

(** What the event loop keeps true of the game: only the player who moved
    last can have a line, and then the game is over; a game that is over
    has a line or a full board; a game that is on has a free square. *)
Definition settled (self : game) : Prop :=
  (∀ m, has_line (board self) m →
        game_over self = true ∧ m = current_player self)
  ∧ (game_over self = true →
     has_line (board self) (current_player self)
     ∨ _is_board_full self = true)
  ∧ (game_over self = false → _is_board_full self = false).

End TicTacToe.

Module Calculator.

(** Python's [float]: IEEE arithmetic, the parser [float(s)] and the printer
    [str(x)], taken as an interface.  [float_of_string] is [None] where
    [float(s)] raises [ValueError]. *)
Class PyFloat : Type := {
  float : Type;
  float_of_string : string → option float;
  str : float → string;
  float_of_int : Z → float;
  fadd : float → float → float;
  fsub : float → float → float;
  fmul : float → float → float;
  fdiv : float → float → float;
  is_zero : float → bool;
  (** ["Error"] is no float literal. *)
  float_of_string_Error : float_of_string "Error" = None;
  (** [float("0")] is a zero. *)
  float_of_string_0 : ∃ z, float_of_string "0" = Some z ∧ is_zero z = true
}.

Inductive exn : Type := ValueError | ZeroDivisionError | UnboundLocalError.

(** A computation that returns or raises. *)
Inductive result (A : Type) : Type :=
  | Ok (a : A)
  | Raise (e : exn).
Arguments Ok {A} a.
Arguments Raise {A} e.

Instance result_bind : MBind result :=
  λ A B (k : A → result B) (m : result A),
    match m with
    | Ok a => k a
    | Raise e => Raise e
    end.

(** The sixteen buttons of [_create_ui]. *)
Inductive operator : Type := Add | Sub | Mul | Div.

Inductive symbol : Type :=
  | Digit (d : ascii)
  | Op (o : operator)
  | C
  | Equals.

(** The digit buttons carry ['0'] to ['9']. *)
Definition is_digit (d : ascii) : bool :=
  (48 <=? nat_of_ascii d)%nat && (nat_of_ascii d <=? 57)%nat.

Definition symbol_ok (s : symbol) : bool :=
  match s with Digit d => is_digit d | _ => true end.

(** The digit buttons that type a number. *)
Fixpoint digits_of (s : string) : list symbol :=
  match s with
  | EmptyString => []
  | String d s' => Digit d :: digits_of s'
  end.

(** A number as it is written: not empty, and no zero in front of other
    digits. *)
Definition no_leading_zero (s : string) : bool :=
  match s with
  | EmptyString => false
  | String d EmptyString => true
  | String d _ => negb (Ascii.eqb d "0")
  end.

(** A non-empty string of digits. *)
Definition digit_string (s : string) : bool :=
  negb (String.eqb s EmptyString) && forallb is_digit (list_ascii_of_string s).

Section WithFloat.
Context `{PyFloat}.

(** [stored_value] starts as the [int] 0 and holds floats later. *)
Inductive number : Type :=
  | Int (z : Z)
  | Float (x : float).

Definition to_float (v : number) : float :=
  match v with Int z => float_of_int z | Float x => x end.

Record calc : Type := Calc {
  current_input : string;
  operation : option operator;
  stored_value : number;
  reset_screen : bool
}.

Definition init : calc :=
  {| current_input := "0"; operation := None; stored_value := Int 0;
     reset_screen := false |}.

(** [float(s)] *)
Definition py_float (s : string) : result float :=
  match float_of_string s with
  | Some x => Ok x
  | None => Raise ValueError
  end.

(** [a / b] on floats *)
Definition py_div (a b : float) : result float :=
  if is_zero b then Raise ZeroDivisionError else Ok (fdiv a b).

(** The body of the [try] of [_calculate]. *)
Definition calculate_try (self : calc) : result calc :=
  current ← py_float (current_input self);
  result ← match operation self with
             | Some Add => Ok (fadd (to_float (stored_value self)) current)
             | Some Sub => Ok (fsub (to_float (stored_value self)) current)
             | Some Mul => Ok (fmul (to_float (stored_value self)) current)
             | Some Div => py_div (to_float (stored_value self)) current
             | None => Raise UnboundLocalError
             end;
  Ok {| current_input := str result; operation := operation self;
        stored_value := Float result; reset_screen := true |}.

(** [_calculate()]: the [try] with its [except ZeroDivisionError]. *)
Definition _calculate (self : calc) : result calc :=
  match calculate_try self with
  | Raise ZeroDivisionError =>
      Ok {| current_input := "Error"; operation := operation self;
            stored_value := stored_value self; reset_screen := true |}
  | r => r
  end.

(** [_on_button_click(symbol)] *)
Definition _on_button_click (self : calc) (s : symbol) : result calc :=
  let current := current_input self in
  match s with
  | Digit d =>
      if String.eqb current "0" || reset_screen self
      then Ok {| current_input := String d EmptyString;
                 operation := operation self;
                 stored_value := stored_value self; reset_screen := false |}
      else Ok {| current_input := current ++ String d EmptyString;
                 operation := operation self;
                 stored_value := stored_value self;
                 reset_screen := reset_screen self |}
  | C =>
      Ok {| current_input := "0"; operation := None; stored_value := Int 0;
            reset_screen := reset_screen self |}
  | Op o =>
      self ← (if bool_decide (operation self ≠ None) && negb (reset_screen self)
                then _calculate self else Ok self);
      x ← py_float current;
      Ok {| current_input := current_input self; operation := Some o;
            stored_value := Float x; reset_screen := true |}
  | Equals =>
      if bool_decide (operation self ≠ None)
      then
        self ← _calculate self;
        Ok {| current_input := current_input self; operation := None;
              stored_value := stored_value self;
              reset_screen := reset_screen self |}
      else Ok self
  end.

(** A sequence of presses; the first exception ends it, as it leaves the
    handler. *)
Fixpoint presses (self : calc) (ss : list symbol) : result calc :=
  match ss with
  | [] => Ok self
  | s :: rest => self' ← _on_button_click self s; presses self' rest
  end.

(** [a o b] on floats, as [_calculate] computes it. *)
Definition binop (o : operator) (a b : float) : result float :=
  match o with
  | Add => Ok (fadd a b)
  | Sub => Ok (fsub a b)
  | Mul => Ok (fmul a b)
  | Div => py_div a b
  end.

(** What [=] leaves when the pending operation on [a] and [b] is done:
    the result on the display and in [stored_value], or ["Error"] on the
    display over the old [stored_value]. *)
Definition shown (stored : number) (r : result float) : calc :=
  match r with
  | Ok x => {| current_input := str x; operation := None;
               stored_value := Float x; reset_screen := true |}
  | Raise _ => {| current_input := "Error"; operation := None;
                  stored_value := stored; reset_screen := true |}
  end.

(** A state whose display [float] can read, or that shows ["Error"]; and
    whose display holds nothing but digits while a number is typed. *)
Definition well_shown (self : calc) : Prop :=
  (is_Some (float_of_string (current_input self))
   ∨ current_input self = "Error"%string)
  ∧ (reset_screen self = false → digit_string (current_input self) = true).

End WithFloat.

(** A model of the interface in which the floats are the integers and the
    literals are the decimal integers: not IEEE arithmetic, but enough to
    run the calculator and to see that the laws of [PyFloat] can be met. *)
Definition integer_of_string (s : string) : option Z :=
  Z.of_int <$> NilZero.int_of_string s.

Definition string_of_integer (z : Z) : string :=
  NilZero.string_of_int (Z.to_int z).

#[local] Instance integer_floats : PyFloat := {|
  float := Z;
  float_of_string := integer_of_string;
  str := string_of_integer;
  float_of_int := id;
  fadd := Z.add;
  fsub := Z.sub;
  fmul := Z.mul;
  fdiv := Z.quot;
  is_zero := Z.eqb 0;
  float_of_string_Error := eq_refl;
  float_of_string_0 := ex_intro _ 0 (conj eq_refl eq_refl)
|}.

End Calculator.

(** ** Grids *)

Section GridFacts.
Context {A : Type}.
Implicit Types (g : list (list A)) (r c : Z) (v dflt : A).

Lemma grid_get_lookup dflt rows cols g r c :
  grid_wf rows cols g → 0 ≤ r < rows → 0 ≤ c < cols →
  ∃ row x, g !! Z.to_nat r = Some row ∧ row !! Z.to_nat c = Some x
           ∧ grid_get dflt g r c = x.
Proof.
  intros [Hlen Hrows] Hr Hc.
  destruct (lookup_lt_is_Some_2 g (Z.to_nat r)) as [row Hrow]; [lia|].
  assert (length row = Z.to_nat cols) as Hrowlen
    by (apply (Forall_lookup_1 _ g _ _ Hrows Hrow)).
  destruct (lookup_lt_is_Some_2 row (Z.to_nat c)) as [x Hx]; [lia|].
  exists row, x. unfold grid_get. rewrite Hrow. simpl. rewrite Hx. done.
Qed.

Lemma grid_wf_set rows cols g r c v :
  grid_wf rows cols g → grid_wf rows cols (grid_set g r c v).
Proof.
  intros [Hlen Hrows]. split.
  - unfold grid_set. by rewrite length_alter.
  - unfold grid_set. apply Forall_alter; [done|].
    intros row _ Hrow. by rewrite length_insert.
Qed.

Lemma grid_get_set_eq dflt rows cols g r c v :
  grid_wf rows cols g → 0 ≤ r < rows → 0 ≤ c < cols →
  grid_get dflt (grid_set g r c v) r c = v.
Proof.
  intros Hwf Hr Hc.
  destruct (grid_get_lookup dflt rows cols g r c) as (row & x & Hrow & Hx & _);
    [done..|].
  unfold grid_get, grid_set. rewrite list_lookup_alter_eq, Hrow. simpl.
  rewrite list_lookup_insert_eq; [done|]. by eapply lookup_lt_Some.
Qed.

Lemma grid_get_set_ne dflt g r c v r' c' :
  0 ≤ r → 0 ≤ c → 0 ≤ r' → 0 ≤ c' → (r, c) ≠ (r', c') →
  grid_get dflt (grid_set g r c v) r' c' = grid_get dflt g r' c'.
Proof.
  intros Hr Hc Hr' Hc' Hne. unfold grid_get, grid_set.
  destruct (decide (r = r')) as [->|Hrr].
  - rewrite list_lookup_alter_eq.
    destruct (g !! Z.to_nat r') as [row|]; [simpl|done].
    rewrite list_lookup_insert_ne; [done|]. intros Heq.
    apply Hne. f_equal. lia.
  - rewrite list_lookup_alter_ne; [done|]. lia.
Qed.

End GridFacts.

(** ** Connect Four *)

Module ConnectFourFacts.
Import ConnectFour.

Implicit Types (b : list (list cell)) (p : color) (self : game).

(** Membership in a list that is written out. *)
Ltac in_list := repeat constructor.

(** *** The walks of [_check_winner] *)

Lemma ray_S sr sc r c n :
  ray sr sc r c (S n) = (r, c) :: ray sr sc (r + sr) (c + sc) n.
Proof.
  unfold ray. rewrite <- cons_seq, <- seq_shift. simpl.
  rewrite map_map. f_equal; [f_equal; lia|].
  apply map_ext. intros k. f_equal; lia.
Qed.

(** A walk that meets a cell it cannot take within its fuel returns the
    cells of [run_cells], appended to what it was given. *)
Lemma walk_run_cells b p sr sc fuel :
  ∀ (k : nat) r c coords,
    (k < fuel)%nat →
    owned b p (r + Z.of_nat k * sr, c + Z.of_nat k * sc) = false →
    walk fuel b p sr sc r c coords
    = Some (coords ++ run_cells fuel b p sr sc r c).
Proof.
  induction fuel as [|fuel IH]; intros k r c coords Hk Hstop; [lia|].
  simpl. unfold owned at 1. simpl.
  destruct (in_bounds r c && cell_is b r c p) eqn:Hown.
  - destruct k as [|k].
    + replace (r + Z.of_nat 0 * sr) with r in Hstop by lia.
      replace (c + Z.of_nat 0 * sc) with c in Hstop by lia.
      unfold owned in Hstop. simpl in Hstop. congruence.
    + rewrite (IH k); [by rewrite <- app_assoc|lia|].
      rewrite <- Hstop. f_equal. f_equal; lia.
  - by rewrite app_nil_r.
Qed.

Lemma run_cells_is_run b p sr sc fuel :
  ∀ (k : nat) r c,
    (k < fuel)%nat →
    owned b p (r + Z.of_nat k * sr, c + Z.of_nat k * sc) = false →
    is_run b p sr sc r c (run_cells fuel b p sr sc r c).
Proof.
  induction fuel as [|fuel IH]; intros k r c Hk Hstop; [lia|].
  simpl. destruct (owned b p (r, c)) eqn:Hown.
  - destruct k as [|k].
    + replace (r + Z.of_nat 0 * sr) with r in Hstop by lia.
      replace (c + Z.of_nat 0 * sc) with c in Hstop by lia. congruence.
    + destruct (IH k (r + sr) (c + sc)) as (n & Hray & Hall & Hnext); [lia|..].
      { rewrite <- Hstop. f_equal. f_equal; lia. }
      exists (S n). rewrite ray_S, <- Hray. split_and!; [done|by constructor|].
      rewrite <- Hnext. f_equal. f_equal; lia.
  - exists 0%nat. split_and!; [done|constructor|].
    rewrite <- Hown. f_equal. f_equal; lia.
Qed.

Lemma ray_owned b p sr sc r c (n k : nat) :
  Forall (λ rc, owned b p rc = true) (ray sr sc r c n) →
  (k < n)%nat →
  owned b p (r + Z.of_nat k * sr, c + Z.of_nat k * sc) = true.
Proof.
  intros Hall Hk. rewrite Forall_forall in Hall. apply Hall.
  apply list_elem_of_In, in_map_iff. exists k. split; [done|].
  apply in_seq. lia.
Qed.

(** A walk collects one list of cells, and a direction pair has one
    coordinate list. *)
Lemma is_run_unique b p sr sc r c cells cells' :
  is_run b p sr sc r c cells → is_run b p sr sc r c cells' → cells = cells'.
Proof.
  intros (n & -> & Hall & Hstop) (n' & -> & Hall' & Hstop').
  destruct (Nat.lt_trichotomy n n') as [Hlt|[->|Hgt]]; [|done|].
  - pose proof (ray_owned _ _ _ _ _ _ _ _ Hall' Hlt). congruence.
  - pose proof (ray_owned _ _ _ _ _ _ _ _ Hall Hgt). congruence.
Qed.

Lemma is_line_unique b p row col d line line' :
  is_line b p row col d line → is_line b p row col d line' → line = line'.
Proof.
  intros (pos & neg & Hpos & Hneg & ->) (pos' & neg' & Hpos' & Hneg' & ->).
  by rewrite (is_run_unique _ _ _ _ _ _ _ _ Hpos Hpos'),
             (is_run_unique _ _ _ _ _ _ _ _ Hneg Hneg').
Qed.

Lemma leaves_board_east sr : leaves_board sr 1.
Proof.
  intros r c. destruct (in_bounds r c) eqn:Hin.
  - exists (Z.to_nat (COLS - c)). unfold in_bounds, ROWS, COLS, FUEL in *. lia.
  - exists 0%nat. unfold in_bounds, ROWS, COLS, FUEL in *. lia.
Qed.

Lemma leaves_board_west sr : leaves_board sr (-1).
Proof.
  intros r c. destruct (in_bounds r c) eqn:Hin.
  - exists (Z.to_nat (c + 1)). unfold in_bounds, ROWS, COLS, FUEL in *. lia.
  - exists 0%nat. unfold in_bounds, ROWS, COLS, FUEL in *. lia.
Qed.

Lemma leaves_board_south sc : leaves_board 1 sc.
Proof.
  intros r c. destruct (in_bounds r c) eqn:Hin.
  - exists (Z.to_nat (ROWS - r)). unfold in_bounds, ROWS, COLS, FUEL in *. lia.
  - exists 0%nat. unfold in_bounds, ROWS, COLS, FUEL in *. lia.
Qed.

Lemma leaves_board_north sc : leaves_board (-1) sc.
Proof.
  intros r c. destruct (in_bounds r c) eqn:Hin.
  - exists (Z.to_nat (r + 1)). unfold in_bounds, ROWS, COLS, FUEL in *. lia.
  - exists 0%nat. unfold in_bounds, ROWS, COLS, FUEL in *. lia.
Qed.

Lemma leaves_board_directions d :
  d ∈ directions → leaves_board d.1 d.2 ∧ leaves_board (- d.1) (- d.2).
Proof.
  unfold directions. rewrite !elem_of_cons, elem_of_nil.
  intros [->|[->|[->|[->|[]]]]]; simpl; split;
    auto using leaves_board_east, leaves_board_west,
               leaves_board_south, leaves_board_north.
Qed.

Lemma leaves_board_stop b p sr sc r c :
  leaves_board sr sc →
  ∃ k : nat, (k < FUEL)%nat ∧
    owned b p (r + Z.of_nat k * sr, c + Z.of_nat k * sc) = false.
Proof.
  intros Hl. destruct (Hl r c) as (k & Hk & Hout).
  exists k. split; [done|]. unfold owned. simpl. by rewrite Hout.
Qed.

(** The two walks of one direction collect the cells of [line_cells]. *)
Lemma walk_line_cells b p row col d :
  d ∈ directions →
  (coords ← walk FUEL b p d.1 d.2 (row + d.1) (col + d.2) [(row, col)];
   walk FUEL b p (- d.1) (- d.2) (row - d.1) (col - d.2) coords)
  = Some (line_cells b p row col d).
Proof.
  intros [Hpos Hneg]%leaves_board_directions.
  destruct (leaves_board_stop b p _ _ (row + d.1) (col + d.2) Hpos)
    as (k1 & Hk1 & Hs1).
  destruct (leaves_board_stop b p _ _ (row - d.1) (col - d.2) Hneg)
    as (k2 & Hk2 & Hs2).
  rewrite (walk_run_cells _ _ _ _ _ k1) by done. cbn [mbind option_bind].
  rewrite (walk_run_cells _ _ _ _ _ k2) by done.
  unfold line_cells. by rewrite <- app_assoc.
Qed.

Lemma line_cells_is_line b p row col d :
  d ∈ directions → is_line b p row col d (line_cells b p row col d).
Proof.
  intros [Hpos Hneg]%leaves_board_directions.
  destruct (leaves_board_stop b p _ _ (row + d.1) (col + d.2) Hpos)
    as (k1 & Hk1 & Hs1).
  destruct (leaves_board_stop b p _ _ (row - d.1) (col - d.2) Hneg)
    as (k2 & Hk2 & Hs2).
  exists (run_cells FUEL b p d.1 d.2 (row + d.1) (col + d.2)),
         (run_cells FUEL b p (- d.1) (- d.2) (row - d.1) (col - d.2)).
  split_and!; [by apply (run_cells_is_run _ _ _ _ _ k1)
              |by apply (run_cells_is_run _ _ _ _ _ k2)|done].
Qed.

Lemma is_line_cells b p row col dirs lines :
  dirs ⊆ directions →
  Forall2 (is_line b p row col) dirs lines →
  lines = map (line_cells b p row col) dirs.
Proof.
  intros Hsub Hlines. induction Hlines as [|d line dirs lines Hline _ IH];
    [done|].
  cbn [map]. f_equal.
  - apply (is_line_unique b p row col d); [done|].
    apply line_cells_is_line, Hsub. left.
  - apply IH. intros d' Hd'. apply Hsub. by right.
Qed.

Lemma scan_directions_first_win b p row col dirs :
  dirs ⊆ directions →
  win_result_of <$> scan_directions FUEL b p row col dirs
  = Some (first_win p (map (line_cells b p row col) dirs)).
Proof.
  induction dirs as [|[dr dc] dirs IH]; intros Hsub; [done|].
  assert ((dr, dc) ∈ directions) as Hd by (apply Hsub; left).
  pose proof (walk_line_cells b p row col (dr, dc) Hd) as Hw.
  cbn [scan_directions fst snd] in Hw |- *.
  destruct (walk FUEL b p dr dc (row + dr) (col + dc) [(row, col)])
    as [coords|]; [|done].
  cbn [mbind option_bind] in Hw |- *. rewrite Hw.
  cbn [mbind option_bind map first_win].
  destruct (4 <=? length (line_cells b p row col (dr, dc)))%nat; [done|].
  apply IH. intros d Hin. apply Hsub. by right.
Qed.

Lemma check_winner_checkWin self row col :
  win_result_of <$> _check_winner self row col
  = Some (checkWin (board self) row col (current_player self)).
Proof. by apply scan_directions_first_win. Qed.

Lemma crossing_run : run init (clicks crossing_moves) = Some crossing.
Proof. vm_compute. reflexivity. Qed.

Lemma crossing_reachable : reachable crossing.
Proof. exists (clicks crossing_moves). apply crossing_run. Qed.

Lemma column_three_drops : drops_by RED (3 * CELL) 4 init = Some column_three.
Proof. vm_compute. reflexivity. Qed.

Lemma empty_board_wf : board_wf empty_board.
Proof.
  split; [done|]. unfold empty_board.
  apply Forall_replicate. by rewrite length_replicate.
Qed.

Lemma crossing_wf : board_wf (board crossing).
Proof. split; [done|]. vm_compute. repeat constructor. Qed.

(** C1: for every 6×7 board, every position [(row, col)] on it and every
    player, [_check_winner] scans the direction pairs (0,1), (1,0), (1,1),
    (1,-1) in this order; the coordinate list of a pair is the origin cell,
    then the cells met walking in the positive direction while they are the
    player's, then those met in the negative direction; the result is
    [Won] with the player and the list of the first pair whose list has at
    least four cells, and [NoWin] if there is none.  The four lists exist
    and are determined by the board, and the call returns: its loops do
    not run out of fuel. *)
Theorem check_winner_first_line_of_four self row col :
  board_wf (board self) →
  in_bounds row col = true →
  let is_line_of := is_line (board self) (current_player self) row col in
  (∃ lines, Forall2 is_line_of [(0, 1); (1, 0); (1, 1); (1, -1)] lines)
  ∧ ∀ lines,
      Forall2 is_line_of [(0, 1); (1, 0); (1, 1); (1, -1)] lines →
      win_result_of <$> _check_winner self row col
      = Some (first_win (current_player self) lines).
Proof.
  intros _ _ is_line_of.
  change [(0, 1); (1, 0); (1, 1); (1, -1)] with directions. split.
  - exists (map (line_cells (board self) (current_player self) row col)
              directions).
    apply Forall2_fmap_r, Forall_Forall2_diag, Forall_forall.
    intros d Hd. by apply line_cells_is_line.
  - intros lines Hlines. apply is_line_cells in Hlines as ->; [|done].
    apply check_winner_checkWin.
Qed.

Lemma check_winner_first_line_of_four_witness :
  let is_line_of := is_line (board crossing) (current_player crossing) 3 3 in
  (∃ lines, Forall2 is_line_of [(0, 1); (1, 0); (1, 1); (1, -1)] lines)
  ∧ ∀ lines,
      Forall2 is_line_of [(0, 1); (1, 0); (1, 1); (1, -1)] lines →
      win_result_of <$> _check_winner crossing 3 3
      = Some (first_win (current_player crossing) lines).
Proof.
  apply (check_winner_first_line_of_four crossing 3 3).
  - split; [reflexivity|]. vm_compute. repeat constructor.
  - reflexivity.
Defined.

(** *** Dropping a disc *)

Lemma scan_rows_spec b col (n : nat) :
  match scan_rows b col (range_down_nat n) with
  | None => ∀ r, 0 ≤ r < Z.of_nat n → get b r col ≠ None
  | Some r =>
      0 ≤ r < Z.of_nat n ∧ get b r col = None
      ∧ ∀ r', r < r' < Z.of_nat n → get b r' col ≠ None
  end.
Proof.
  induction n as [|n IH]; simpl; [intros r; lia|].
  destruct (get b (Z.of_nat n) col) as [x|] eqn:Hcell.
  - destruct (scan_rows b col (range_down_nat n)) as [r|].
    + destruct IH as (Hr & Hempty & Hbelow). split; [lia|split; [done|]].
      intros r' Hr'. destruct (decide (r' = Z.of_nat n)) as [->|]; [congruence|].
      apply Hbelow. lia.
    + intros r Hr. destruct (decide (r = Z.of_nat n)) as [->|]; [congruence|].
      apply IH. lia.
  - split; [lia|split; [done|]]. intros r'. lia.
Qed.

Lemma find_target_row_spec b col :
  match find_target_row b col with
  | None => column_full b col
  | Some r =>
      0 ≤ r < ROWS ∧ get b r col = None
      ∧ ∀ r', r < r' < ROWS → get b r' col ≠ None
  end.
Proof. apply (scan_rows_spec b col (Z.to_nat ROWS)). Qed.

Lemma column_full_find_target_row b col :
  column_full b col → find_target_row b col = None.
Proof.
  intros Hfull. pose proof (find_target_row_spec b col) as Hspec.
  destruct (find_target_row b col) as [r|]; [|done].
  destruct Hspec as (Hr & Hempty & _). by destruct (Hfull r Hr).
Qed.

(** The drop on a board: the lowest empty cell of the column is set, and
    nothing else. *)
Lemma drop_spec b p col :
  board_wf b → 0 ≤ col < COLS →
  match drop b p col with
  | None => column_full b col
  | Some (b', (r, c)) =>
      c = col ∧ 0 ≤ r < ROWS
      ∧ get b r col = None
      ∧ (∀ r', r < r' < ROWS → get b r' col ≠ None)
      ∧ get b' r col = Some p
      ∧ (∀ r' c', 0 ≤ r' → 0 ≤ c' → (r', c') ≠ (r, col) →
           get b' r' c' = get b r' c')
      ∧ board_wf b'
  end.
Proof.
  intros Hwf Hcol. pose proof (find_target_row_spec b col) as Hfind.
  unfold drop. destruct (find_target_row b col) as [r|];
    cbn [mbind option_bind]; [|done].
  destruct Hfind as (Hr & Hempty & Hbelow).
  split; [done|]. split; [done|]. split; [done|]. split; [done|].
  split; [by apply (grid_get_set_eq _ ROWS COLS)|].
  split; [|by apply grid_wf_set].
  intros r' c' Hr' Hc' Hne. apply grid_get_set_ne; [lia..|]. congruence.
Qed.

(** [_check_winner] returns. *)
Lemma check_winner_total self row col :
  ∃ winner coords, _check_winner self row col = Some (winner, coords).
Proof.
  pose proof (check_winner_checkWin self row col) as Hcw.
  destruct (_check_winner self row col) as [[winner coords]|]; [eauto|done].
Qed.

(** What a click does to the board when the game is on and the click is on
    the board: nothing if the column is full, one drop otherwise. *)
Lemma on_click_board self x :
  game_over self = false →
  0 ≤ x / CELL < COLS →
  match drop (board self) (current_player self) (x / CELL) with
  | None =>
      _on_click self x
      = Some (self, [ShowInfo "Column Full" "Try a different column."])
  | Some (b', _) =>
      ∃ self' out, _on_click self x = Some (self', out) ∧ board self' = b'
  end.
Proof.
  intros Hon Hcol. unfold _on_click. rewrite Hon.
  replace (negb ((0 <=? x / CELL) && (x / CELL <? COLS))) with false by lia.
  cbv zeta.
  destruct (drop (board self) (current_player self) (x / CELL))
    as [[b' [r c]]|]; [|done].
  destruct (check_winner_total (set_board self b') r (x / CELL))
    as (winner & coords & ->).
  cbn [mbind option_bind]. destruct winner as [w|]; [by eexists _, _|].
  destruct (_is_board_full (set_board self b')); by eexists _, _.
Qed.

(** C2: for every column index [0 ≤ col < 7] of a 6×7 board, the drop finds
    the lowest unoccupied row of the column, scanning from the bottom row
    up; it fails, as a full column, if every row of the column is occupied;
    otherwise it sets exactly that cell to the current player and the cell
    placed is the [(row, column)] returned.  The click handler of a game in
    progress does this drop to the board. *)
Theorem drop_lowest_empty_row self x :
  board_wf (board self) →
  game_over self = false →
  0 ≤ x / CELL < COLS →
  let b := board self in
  let col := x / CELL in
  match drop b (current_player self) col with
  | None =>
      column_full b col
      ∧ _on_click self x
        = Some (self, [ShowInfo "Column Full" "Try a different column."])
  | Some (b', (r, c)) =>
      c = col ∧ 0 ≤ r < ROWS
      ∧ get b r col = None
      ∧ (∀ r', r < r' < ROWS → get b r' col ≠ None)
      ∧ get b' r col = Some (current_player self)
      ∧ (∀ r' c', 0 ≤ r' → 0 ≤ c' → (r', c') ≠ (r, col) →
           get b' r' c' = get b r' c')
      ∧ board_wf b'
      ∧ ∃ self' out, _on_click self x = Some (self', out) ∧ board self' = b'
  end.
Proof.
  intros Hwf Hon Hcol b col.
  pose proof (on_click_board self x Hon Hcol) as Hclick.
  pose proof (drop_spec b (current_player self) col Hwf Hcol) as Hdrop.
  fold b col in Hclick.
  destruct (drop b (current_player self) col) as [[b' [r c]]|]; [|done].
  destruct Hdrop as (? & ? & ? & ? & ? & ? & ?). by repeat (split; [done|]).
Qed.

Lemma drop_lowest_empty_row_witness :
  let b := board init in
  let col := 300 / CELL in
  match drop b (current_player init) col with
  | None =>
      column_full b col
      ∧ _on_click init 300
        = Some (init, [ShowInfo "Column Full" "Try a different column."])
  | Some (b', (r, c)) =>
      c = col ∧ 0 ≤ r < ROWS
      ∧ get b r col = None
      ∧ (∀ r', r < r' < ROWS → get b r' col ≠ None)
      ∧ get b' r col = Some (current_player init)
      ∧ (∀ r' c', 0 ≤ r' → 0 ≤ c' → (r', c') ≠ (r, col) →
           get b' r' c' = get b r' c')
      ∧ board_wf b'
      ∧ ∃ self' out, _on_click init 300 = Some (self', out) ∧ board self' = b'
  end.
Proof.
  apply (drop_lowest_empty_row init 300).
  - split; [reflexivity|]. vm_compute. repeat constructor.
  - reflexivity.
  - change (300 / CELL) with 3. unfold COLS. lia.
Defined.

(** C3: when every row of a column holds a disc, a further drop into the
    column fails as a full column and the click changes nothing of the
    game: the state after it, with every cell of the board, the current
    player and the status, is the state before it; while the game is on,
    all the click does is show the "Column Full" notice. *)
Theorem full_column_drop_rejected self x :
  0 ≤ x / CELL < COLS →
  column_full (board self) (x / CELL) →
  drop (board self) (current_player self) (x / CELL) = None
  ∧ ∃ out,
      _on_click self x = Some (self, out)
      ∧ (game_over self = false →
         out = [ShowInfo "Column Full" "Try a different column."]).
Proof.
  intros Hcol Hfull.
  assert (drop (board self) (current_player self) (x / CELL) = None) as Hdrop.
  { unfold drop. by rewrite column_full_find_target_row. }
  split; [done|].
  destruct (game_over self) eqn:Hon.
  - exists []. unfold _on_click. by rewrite Hon.
  - pose proof (on_click_board self x Hon Hcol) as Hclick.
    rewrite Hdrop in Hclick. eauto.
Qed.

Lemma stacked_run : run init (clicks [0; 0; 0; 0; 0; 0]) = Some stacked.
Proof. vm_compute. reflexivity. Qed.

Lemma full_column_drop_rejected_witness :
  drop (board stacked) (current_player stacked) (45 / CELL) = None
  ∧ ∃ out,
      _on_click stacked 45 = Some (stacked, out)
      ∧ (game_over stacked = false →
         out = [ShowInfo "Column Full" "Try a different column."]).
Proof.
  apply (full_column_drop_rejected stacked 45).
  - change (45 / CELL) with 0. unfold COLS. lia.
  - change (45 / CELL) with 0. intros r Hr. unfold ROWS in Hr.
    assert (r = 0 ∨ r = 1 ∨ r = 2 ∨ r = 3 ∨ r = 4 ∨ r = 5)
      as [->|[->|[->|[->|[->| ->]]]]] by lia;
      vm_compute; discriminate.
Defined.

(** *** The scenario of four drops in column 3 *)

(** C4, as the specification has it, fails: after RED's four drops in
    column 3 the check at the cell placed last, [(2, 3)], does not report
    the line from the bottom up. *)
Lemma column_three_not_bottom_up :
  ∃ self,
    drops_by RED (3 * CELL) 4 init = Some self
    ∧ win_result_of <$> _check_winner self 2 3
      ≠ Some (Won RED [(5, 3); (4, 3); (3, 3); (2, 3)]).
Proof.
  exists column_three. split; [apply column_three_drops|].
  vm_compute. discriminate.
Qed.

(** C4, amended: from the empty 6×7 board, when RED drops in column 3 four
    times in a row, the fourth disc lands on [(2, 3)], and the check at
    that cell reports [Won] for RED with the coordinate list that starts at
    the cell placed and goes down the column:
    [(2,3), (3,3), (4,3), (5,3)].  The game is then won with this line. *)
Theorem column_three_wins_top_down :
  ∃ self3 self,
    drops_by RED (3 * CELL) 3 init = Some self3
    ∧ drops_by RED (3 * CELL) 4 init = Some self
    ∧ drop (board self3) RED 3 = Some (board self, (2, 3))
    ∧ win_result_of <$> _check_winner self 2 3
      = Some (Won RED [(2, 3); (3, 3); (4, 3); (5, 3)])
    ∧ status self = StatusWon RED [(2, 3); (3, 3); (4, 3); (5, 3)].
Proof.
  eexists _, column_three. split; [vm_compute; reflexivity|].
  split; [apply column_three_drops|].
  split; [vm_compute; reflexivity|].
  split; vm_compute; reflexivity.
Qed.

(** *** Invariants of the event loop *)

Lemma get_empty_board r c : get empty_board r c = None.
Proof.
  unfold get, grid_get, empty_board.
  destruct (replicate (Z.to_nat ROWS) _ !! Z.to_nat r) as [row|] eqn:Hrow;
    [|done].
  apply lookup_replicate in Hrow as [-> _]. cbn [mbind option_bind].
  destruct (replicate (Z.to_nat COLS) _ !! Z.to_nat c) as [x|] eqn:Hx; [|done].
  by apply lookup_replicate in Hx as [-> _].
Qed.

Lemma gravity_empty_board : gravity empty_board.
Proof. intros r c _ _ _ Hdisc. by rewrite get_empty_board in Hdisc. Qed.

Lemma gravity_drop b p col b' rc :
  board_wf b → gravity b → 0 ≤ col < COLS →
  drop b p col = Some (b', rc) → gravity b'.
Proof.
  intros Hwf Hgrav Hcol Hdrop.
  pose proof (drop_spec b p col Hwf Hcol) as Hspec. rewrite Hdrop in Hspec.
  destruct rc as [r c].
  destruct Hspec as (-> & Hr & Hempty & Hbelow & Hset & Hframe & _).
  intros r0 c0 Hr0 Hr0' Hc0 Hdisc.
  destruct (decide ((r0 + 1, c0) = (r, col))) as [[= <- ->]|Hother].
  { by rewrite Hset. }
  rewrite Hframe by (done || lia).
  destruct (decide ((r0, c0) = (r, col))) as [[= -> ->]|Hother'].
  { apply Hbelow. lia. }
  rewrite Hframe in Hdisc by (done || lia). by apply Hgrav.
Qed.

(** What one event does to the board. *)
Lemma handle_board self e :
  ∃ self' out,
    handle self e = Some (self', out)
    ∧ (if is_reset e then self' = init
       else board self' = board self
            ∨ ∃ x rc, e = Click x ∧ game_over self = false
                      ∧ 0 ≤ x / CELL < COLS
                      ∧ drop (board self) (current_player self) (x / CELL)
                        = Some (board self', rc)).
Proof.
  destruct e as [x|x|char|]; cbn [handle is_reset].
  - destruct (game_over self) eqn:Hon.
    { exists self, []. unfold _on_click. rewrite Hon. auto. }
    destruct (decide (0 ≤ x / CELL < COLS)) as [Hcol|Hcol].
    + pose proof (on_click_board self x Hon Hcol) as Hclick.
      destruct (drop (board self) (current_player self) (x / CELL))
        as [[b' rc]|] eqn:Hdrop.
      * destruct Hclick as (self' & out & Hclick & <-).
        exists self', out. split; [done|]. right. by exists x, rc.
      * eexists _, _. split; [done|]. by left.
    + exists self, []. unfold _on_click. rewrite Hon.
      replace (negb ((0 <=? x / CELL) && (x / CELL <? COLS))) with true by lia.
      auto.
  - destruct (_on_motion self x) as [self' out] eqn:Hmove.
    exists self', out. split; [done|]. left.
    unfold _on_motion in Hmove. repeat case_match; by injection Hmove as <- _.
  - unfold _on_key. destruct (is_reset_key char).
    + eexists _, _. by split.
    + exists self, []. auto.
  - eexists _, _. by split.
Qed.

Lemma handle_invariant self e self' out :
  board_wf (board self) → gravity (board self) →
  handle self e = Some (self', out) →
  board_wf (board self') ∧ gravity (board self').
Proof.
  intros Hwf Hgrav Hstep.
  destruct (handle_board self e) as (self'' & out' & Hstep' & Hboard).
  rewrite Hstep in Hstep'. injection Hstep' as <- <-.
  destruct (is_reset e).
  - subst self'. split; [apply empty_board_wf|apply gravity_empty_board].
  - destruct Hboard as [->|(x & rc & _ & _ & Hcol & Hdrop)]; [done|].
    split; [|by eapply gravity_drop].
    pose proof (drop_spec (board self) (current_player self) (x / CELL)
                  Hwf Hcol) as Hspec.
    rewrite Hdrop in Hspec. destruct rc. tauto.
Qed.

Lemma run_invariant es :
  ∀ self self',
    board_wf (board self) → gravity (board self) →
    run self es = Some self' →
    board_wf (board self') ∧ gravity (board self').
Proof.
  induction es as [|e es IH]; intros self self' Hwf Hgrav Hrun; simpl in Hrun.
  - by injection Hrun as <-.
  - destruct (handle self e) as [[self1 out]|] eqn:Hstep; [|done].
    cbn [mbind option_bind] in Hrun.
    destruct (handle_invariant self e self1 out) as [Hwf1 Hgrav1]; [done..|].
    by apply (IH self1).
Qed.

Lemma reachable_invariant self :
  reachable self → board_wf (board self) ∧ gravity (board self).
Proof.
  intros [es Hrun]. apply (run_invariant es init); [| |done].
  - apply empty_board_wf.
  - apply gravity_empty_board.
Qed.

Lemma in_py_range n c : In c (py_range n) ↔ 0 ≤ c < n.
Proof.
  unfold py_range. rewrite in_map_iff. split.
  - intros (k & <- & Hk%in_seq). lia.
  - intros Hc. exists (Z.to_nat c). rewrite in_seq. lia.
Qed.

Lemma is_board_full_top_row self :
  _is_board_full self = true
  ↔ ∀ c, 0 ≤ c < COLS → get (board self) 0 c ≠ None.
Proof.
  unfold _is_board_full. rewrite forallb_forall.
  split; intros Hfull c Hc.
  - apply in_py_range, Hfull in Hc. by apply bool_decide_eq_true in Hc.
  - apply bool_decide_eq_true, Hfull. by apply in_py_range.
Qed.

(** Under gravity a column whose top cell holds a disc is full. *)
Lemma gravity_column_full b col :
  gravity b → 0 ≤ col < COLS → get b 0 col ≠ None → column_full b col.
Proof.
  intros Hgrav Hcol Htop r Hr.
  assert (∀ k : nat, Z.of_nat k < ROWS → get b (Z.of_nat k) col ≠ None) as Hall.
  { induction k as [|k IH]; intros Hk; [done|].
    replace (Z.of_nat (S k)) with (Z.of_nat k + 1) by lia.
    apply Hgrav; [lia..|]. apply IH. lia. }
  replace r with (Z.of_nat (Z.to_nat r)) by lia. apply Hall. lia.
Qed.

(** C5: in every state the event loop reaches from the empty board,
    [_is_board_full], which looks at the top row only, is true if and only
    if every cell of the grid holds a disc. *)
Theorem is_board_full_iff_no_empty_cell self :
  reachable self →
  _is_board_full self = true
  ↔ ∀ r c, 0 ≤ r < ROWS → 0 ≤ c < COLS → get (board self) r c ≠ None.
Proof.
  intros [_ Hgrav]%reachable_invariant. rewrite is_board_full_top_row.
  split.
  - intros Htop r c Hr Hc. by apply gravity_column_full; [..|apply Htop|].
  - intros Hall c Hc. apply Hall; [unfold ROWS; lia|done].
Qed.

Lemma is_board_full_iff_no_empty_cell_witness :
  _is_board_full stacked = true
  ↔ ∀ r c, 0 ≤ r < ROWS → 0 ≤ c < COLS → get (board stacked) r c ≠ None.
Proof.
  apply (is_board_full_iff_no_empty_cell stacked).
  exists (clicks [0; 0; 0; 0; 0; 0]). vm_compute. reflexivity.
Defined.

(** *** Terminal states *)

Lemma status_terminal self : status self ≠ InProgress ↔ game_over self = true.
Proof. unfold status. destruct (game_over self); [by case_match|done]. Qed.

(** One event that is not a reset, in a finished game. *)
Lemma terminal_step self e :
  game_over self = true → is_reset e = false →
  ∃ self' out,
    handle self e = Some (self', out)
    ∧ board self' = board self
    ∧ current_player self' = current_player self
    ∧ game_over self' = true
    ∧ win_coords self' = win_coords self.
Proof.
  intros Hover Hreset. destruct e as [x|x|char|]; cbn [handle is_reset] in *.
  - exists self, []. unfold _on_click. by rewrite Hover.
  - unfold _on_motion. rewrite Hover. by eexists _, _.
  - unfold _on_key. rewrite Hreset. by exists self, [].
  - done.
Qed.

(** C6: the terminal states are absorbing.  In a game that is won or
    drawn, a click returns at once with the state as it was, and whatever
    events follow, as long as none is a reset, the board, the current
    player and the status stay what they were; a reset ([reset_game], from
    the button or the R key) puts the game back in progress. *)
Theorem terminal_states_absorbing self :
  status self ≠ InProgress →
  (∀ x, _on_click self x = Some (self, []))
  ∧ (∀ es, Forall (λ e, is_reset e = false) es →
       ∃ self', run self es = Some self'
                ∧ board self' = board self
                ∧ current_player self' = current_player self
                ∧ status self' = status self)
  ∧ (∀ e, is_reset e = true →
       ∃ out, handle self e = Some (init, out) ∧ status init = InProgress).
Proof.
  intros Hover%status_terminal. split; [|split].
  - intros x. unfold _on_click. by rewrite Hover.
  - intros es Hes. revert self Hover.
    induction Hes as [|e es He _ IH]; intros self Hover; [by exists self|].
    destruct (terminal_step self e Hover He)
      as (self1 & out & Hstep & Hb & Hp & Hover1 & Hw).
    destruct (IH self1 Hover1) as (self' & Hrun & Hb' & Hp' & Hs').
    exists self'. simpl. rewrite Hstep. cbn [mbind option_bind].
    split; [done|]. split; [congruence|]. split; [congruence|].
    rewrite Hs'. unfold status. by rewrite Hover, Hover1, Hp, Hw.
  - intros e He. destruct e as [x|x|char|]; cbn [handle is_reset] in *;
      try done.
    + unfold _on_key. rewrite He. by eexists.
    + by eexists.
Qed.

Lemma terminal_states_absorbing_witness :
  (∀ x, _on_click crossing x = Some (crossing, []))
  ∧ (∀ es, Forall (λ e, is_reset e = false) es →
       ∃ self', run crossing es = Some self'
                ∧ board self' = board crossing
                ∧ current_player self' = current_player crossing
                ∧ status self' = status crossing)
  ∧ (∀ e, is_reset e = true →
       ∃ out, handle crossing e = Some (init, out) ∧ status init = InProgress).
Proof.
  apply (terminal_states_absorbing crossing).
  vm_compute. discriminate.
Defined.

(** *** Monotonic cells *)

(** One event that is not a reset leaves a cell as it is or fills an empty
    cell with the disc of the player to move. *)
Lemma cell_step self e self' out r c :
  board_wf (board self) →
  handle self e = Some (self', out) → is_reset e = false →
  0 ≤ r → 0 ≤ c →
  get (board self') r c = get (board self) r c
  ∨ (get (board self) r c = None
     ∧ get (board self') r c = Some (current_player self)).
Proof.
  intros Hwf Hstep Hreset Hr Hc.
  destruct (handle_board self e) as (self'' & out' & Hstep' & Hboard).
  rewrite Hstep in Hstep'. injection Hstep' as <- <-. rewrite Hreset in Hboard.
  destruct Hboard as [->|(x & [r0 c0] & _ & _ & Hcol & Hdrop)]; [by left|].
  pose proof (drop_spec (board self) (current_player self) (x / CELL) Hwf Hcol)
    as Hspec.
  rewrite Hdrop in Hspec.
  destruct Hspec as (-> & _ & Hempty & _ & Hset & Hframe & _).
  destruct (decide ((r, c) = (r0, x / CELL))) as [[= -> ->]|Hother].
  - right. by split.
  - left. by apply Hframe.
Qed.

Lemma cell_kept es :
  ∀ self self' r c p,
    board_wf (board self) → gravity (board self) →
    Forall (λ e, is_reset e = false) es →
    run self es = Some self' →
    0 ≤ r → 0 ≤ c →
    get (board self) r c = Some p → get (board self') r c = Some p.
Proof.
  induction es as [|e es IH]; intros self self' r c p Hwf Hgrav Hes Hrun Hr Hc Hp;
    simpl in Hrun.
  - by injection Hrun as <-.
  - destruct (handle self e) as [[self1 out]|] eqn:Hstep; [|done].
    cbn [mbind option_bind] in Hrun.
    apply Forall_cons in Hes as [He Hes].
    destruct (handle_invariant self e self1 out) as [Hwf1 Hgrav1]; [done..|].
    apply (IH self1 self' r c p); try done.
    destruct (cell_step self e self1 out r c) as [->|[Hempty _]];
      [done..|congruence].
Qed.

(** C7: along every sequence of moves and resets from the empty board the
    cells are monotonic.  In a state the event loop reaches, an event that
    is not a reset leaves each cell as it is or turns an empty cell into a
    disc of the player to move (RED or YELLOW); so a disc stays where it is, with its
    colour, over any number of such events.  Only a reset empties cells,
    and it makes every cell of the board empty. *)
Theorem cells_monotonic self :
  reachable self →
  (∀ e, ∃ self' out,
     handle self e = Some (self', out)
     ∧ (is_reset e = false →
        ∀ r c, 0 ≤ r < ROWS → 0 ≤ c < COLS →
          get (board self') r c = get (board self) r c
          ∨ (get (board self) r c = None
             ∧ get (board self') r c = Some (current_player self)))
     ∧ (is_reset e = true → ∀ r c, get (board self') r c = None))
  ∧ (∀ es self' r c p,
       Forall (λ e, is_reset e = false) es →
       run self es = Some self' →
       0 ≤ r < ROWS → 0 ≤ c < COLS →
       get (board self) r c = Some p → get (board self') r c = Some p).
Proof.
  intros [Hwf Hgrav]%reachable_invariant. split.
  - intros e.
    destruct (handle_board self e) as (self' & out & Hstep & Hboard).
    exists self', out. split; [done|]. split.
    + intros Hreset r c Hr Hc.
      destruct (cell_step self e self' out r c) as [?|[? ?]];
        [done|done|done|lia|lia|by left|by right].
    + intros Hreset r c. rewrite Hreset in Hboard. subst self'.
      apply get_empty_board.
  - intros es self' r c p Hes Hrun Hr Hc.
    apply (cell_kept es self self'); [done..|lia|lia].
Qed.

Lemma cells_monotonic_witness :
  (∀ e, ∃ self' out,
     handle stacked e = Some (self', out)
     ∧ (is_reset e = false →
        ∀ r c, 0 ≤ r < ROWS → 0 ≤ c < COLS →
          get (board self') r c = get (board stacked) r c
          ∨ (get (board stacked) r c = None
             ∧ get (board self') r c = Some (current_player stacked)))
     ∧ (is_reset e = true → ∀ r c, get (board self') r c = None))
  ∧ (∀ es self' r c p,
       Forall (λ e, is_reset e = false) es →
       run stacked es = Some self' →
       0 ≤ r < ROWS → 0 ≤ c < COLS →
       get (board stacked) r c = Some p → get (board self') r c = Some p).
Proof.
  apply (cells_monotonic stacked).
  exists (clicks [0; 0; 0; 0; 0; 0]). vm_compute. reflexivity.
Defined.

(** *** Mirroring *)

Lemma in_bounds_mirror r c : in_bounds r (COLS - 1 - c) = in_bounds r c.
Proof. unfold in_bounds, ROWS, COLS. lia. Qed.

Lemma get_mirror b r c :
  board_wf b → in_bounds r c = true →
  get (mirror b) r (COLS - 1 - c) = get b r c.
Proof.
  intros Hwf Hin.
  assert (0 ≤ r < ROWS ∧ 0 ≤ c < COLS) as [Hr Hc]
    by (unfold in_bounds in Hin; lia).
  destruct (grid_get_lookup None ROWS COLS b r c) as (row & x & Hrow & Hx & Hget);
    [done..|].
  assert (length row = Z.to_nat COLS) as Hlen.
  { destruct Hwf as [_ Hrows]. apply (Forall_lookup_1 _ b _ _ Hrows Hrow). }
  unfold get in *. rewrite Hget. unfold grid_get, mirror, cell in *.
  rewrite list_lookup_fmap, Hrow. cbn [fmap option_fmap option_map mbind option_bind].
  rewrite reverse_lookup by (unfold COLS in *; lia).
  replace (length row - S (Z.to_nat (COLS - 1 - c)))%nat with (Z.to_nat c)
    by (unfold COLS in *; lia).
  by rewrite Hx.
Qed.

Lemma owned_mirror b p r c :
  board_wf b →
  owned (mirror b) p (r, COLS - 1 - c) = owned b p (r, c).
Proof.
  intros Hwf. unfold owned, cell_is. cbn [fst snd]. rewrite in_bounds_mirror.
  destruct (in_bounds r c) eqn:Hin; [|done]. by rewrite get_mirror.
Qed.

(** A walk on the mirrored board is the mirror image of the walk with the
    column step reversed. *)
Lemma run_cells_mirror b p sr sc n :
  board_wf b →
  ∀ r c,
    run_cells n (mirror b) p sr sc r (COLS - 1 - c)
    = mirror_coord <$> run_cells n b p sr (- sc) r c.
Proof.
  intros Hwf. induction n as [|n IH]; intros r c; [done|].
  cbn [run_cells]. rewrite owned_mirror by done.
  destruct (owned b p (r, c)); [|done].
  rewrite fmap_cons. f_equal.
  replace (COLS - 1 - c + sc) with (COLS - 1 - (c + - sc)) by lia.
  apply IH.
Qed.

Lemma line_cells_mirror b p row col dr dc :
  board_wf b →
  line_cells (mirror b) p row (COLS - 1 - col) (dr, dc)
  = mirror_coord <$>
      ((row, col) :: run_cells FUEL b p dr (- dc) (row + dr) (col - dc)
                  ++ run_cells FUEL b p (- dr) dc (row - dr) (col + dc)).
Proof.
  intros Hwf. unfold line_cells. cbn [fst snd].
  rewrite fmap_cons, fmap_app. f_equal. f_equal.
  - replace (COLS - 1 - col + dc) with (COLS - 1 - (col - dc)) by lia.
    by apply run_cells_mirror.
  - replace (COLS - 1 - col - dc) with (COLS - 1 - (col + dc)) by lia.
    rewrite run_cells_mirror by done. by rewrite Z.opp_involutive.
Qed.

(** Each line through the mirrored position is, up to the order of its
    cells, the mirror image of a line through the position: the horizontal
    and the vertical one of themselves, each diagonal of the other. *)
Lemma line_cells_mirror_east b p row col :
  board_wf b →
  line_cells (mirror b) p row (COLS - 1 - col) (0, 1)
  ≡ₚ mirror_coord <$> line_cells b p row col (0, 1).
Proof.
  intros Hwf. rewrite line_cells_mirror by done. unfold line_cells.
  cbn [fst snd]. change (- 0) with 0. change (- (1)) with (-1).
  rewrite !Z.add_0_r, !Z.sub_0_r.
  replace (col - 1) with (col + -1) by lia.
  replace (col - -1) with (col + 1) by lia.
  apply fmap_Permutation. constructor. apply Permutation_app_comm.
Qed.

Lemma line_cells_mirror_south b p row col :
  board_wf b →
  line_cells (mirror b) p row (COLS - 1 - col) (1, 0)
  = mirror_coord <$> line_cells b p row col (1, 0).
Proof.
  intros Hwf. rewrite line_cells_mirror by done. unfold line_cells.
  cbn [fst snd]. change (- 0) with 0. by rewrite !Z.add_0_r, !Z.sub_0_r.
Qed.

Lemma line_cells_mirror_south_east b p row col :
  board_wf b →
  line_cells (mirror b) p row (COLS - 1 - col) (1, 1)
  = mirror_coord <$> line_cells b p row col (1, -1).
Proof.
  intros Hwf. rewrite line_cells_mirror by done. unfold line_cells.
  cbn [fst snd]. change (- (1)) with (-1). change (- -1) with 1.
  replace (col - 1) with (col + -1) by lia.
  by replace (col - -1) with (col + 1) by lia.
Qed.

Lemma line_cells_mirror_south_west b p row col :
  board_wf b →
  line_cells (mirror b) p row (COLS - 1 - col) (1, -1)
  = mirror_coord <$> line_cells b p row col (1, 1).
Proof.
  intros Hwf. rewrite line_cells_mirror by done. unfold line_cells.
  cbn [fst snd]. change (- (1)) with (-1). change (- -1) with 1.
  replace (col - -1) with (col + 1) by lia.
  by replace (col + -1) with (col - 1) by lia.
Qed.

Lemma first_win_Won p lines p' line :
  first_win p lines = Won p' line →
  p' = p ∧ line ∈ lines ∧ (4 ≤ length line)%nat.
Proof.
  induction lines as [|l lines IH]; [done|]. cbn [first_win].
  destruct (4 <=? length l)%nat eqn:Hlen.
  - intros [= <- <-]. split; [done|]. split; [left|lia].
  - intros (-> & Hin & Hlong)%IH. split; [done|]. split; [by right|done].
Qed.

(** C8, as the specification has it, fails.  In the game [crossing] RED's
    last disc, at [(3, 3)], completes both diagonals, and the board is its
    own mirror image; the check on the mirrored board reports the
    down-right diagonal again, which is not the mirror image of the line
    reported on the board, not even up to the order of the cells. *)
Lemma crossing_mirror_reports_other_line :
  board_wf (board crossing) ∧ in_bounds 3 3 = true
  ∧ win_result_of <$>
      _check_winner (set_board crossing (mirror (board crossing)))
        3 (COLS - 1 - 3)
    ≠ mirror_result <$> (win_result_of <$> _check_winner crossing 3 3)
  ∧ ∃ line line',
      win_result_of <$>
        _check_winner (set_board crossing (mirror (board crossing)))
          3 (COLS - 1 - 3)
      = Some (Won RED line)
      ∧ mirror_result <$> (win_result_of <$> _check_winner crossing 3 3)
        = Some (Won RED line')
      ∧ (4, 4) ∈ line ∧ (4, 4) ∉ line'.
Proof.
  split; [apply crossing_wf|]. split; [reflexivity|].
  split; [vm_compute; discriminate|].
  exists [(3, 3); (4, 4); (5, 5); (2, 2)], [(3, 3); (4, 2); (5, 1); (2, 4)].
  split; [vm_compute; reflexivity|]. split; [vm_compute; reflexivity|].
  split; [in_list|].
  rewrite !elem_of_cons, elem_of_nil. intros [?|[?|[?|[?|[]]]]]; discriminate.
Qed.

(** C8, amended: on a 6×7 board, the check on the column-mirrored board at
    the mirrored position [(row, 6 - col)] reports a win exactly when the
    check on the board at [(row, col)] does, and for the same player.  The
    coordinate list it reports is, up to the order of its cells, the
    mirror image of the list that the check on the board reports, in all
    cases but one: when both diagonals through [(row, col)] have at least
    four cells and neither the row nor the column has.  Then the check on
    the board reports the down-right diagonal, and the check on the
    mirrored board reports the mirror image of the down-left one. *)
Theorem mirror_win_symmetric self row col :
  board_wf (board self) →
  in_bounds row col = true →
  let b := board self in
  let p := current_player self in
  ∃ w w' east south south_east south_west,
    win_result_of <$> _check_winner self row col = Some w
    ∧ win_result_of <$>
        _check_winner (set_board self (mirror b)) row (COLS - 1 - col)
      = Some w'
    ∧ is_line b p row col (0, 1) east
    ∧ is_line b p row col (1, 0) south
    ∧ is_line b p row col (1, 1) south_east
    ∧ is_line b p row col (1, -1) south_west
    ∧ is_win w' = is_win w
    ∧ ∀ p' line', w' = Won p' line' →
        p' = p
        ∧ ∃ line,
            w = Won p line
            ∧ if decide ((length east < 4)%nat ∧ (length south < 4)%nat
                         ∧ (4 ≤ length south_east)%nat
                         ∧ (4 ≤ length south_west)%nat)
              then line = south_east
                   ∧ line' = mirror_coord <$> south_west
              else line' ≡ₚ mirror_coord <$> line.
Proof.
  intros Hwf _ b p.
  exists (checkWin b row col p), (checkWin (mirror b) row (COLS - 1 - col) p),
    (line_cells b p row col (0, 1)), (line_cells b p row col (1, 0)),
    (line_cells b p row col (1, 1)), (line_cells b p row col (1, -1)).
  split; [apply check_winner_checkWin|].
  split; [apply (check_winner_checkWin (set_board self (mirror b)))|].
  split; [apply line_cells_is_line; unfold directions; in_list|].
  split; [apply line_cells_is_line; unfold directions; in_list|].
  split; [apply line_cells_is_line; unfold directions; in_list|].
  split; [apply line_cells_is_line; unfold directions; in_list|].
  pose proof (line_cells_mirror_east b p row col Hwf) as He.
  pose proof (line_cells_mirror_south b p row col Hwf) as Hs.
  pose proof (line_cells_mirror_south_east b p row col Hwf) as Hse.
  pose proof (line_cells_mirror_south_west b p row col Hwf) as Hsw.
  unfold checkWin, directions. cbn [map].
  set (l1 := line_cells b p row col (0, 1)) in *.
  set (l2 := line_cells b p row col (1, 0)) in *.
  set (l3 := line_cells b p row col (1, 1)) in *.
  set (l4 := line_cells b p row col (1, -1)) in *.
  set (m1 := line_cells (mirror b) p row (COLS - 1 - col) (0, 1)) in *.
  set (m2 := line_cells (mirror b) p row (COLS - 1 - col) (1, 0)) in *.
  set (m3 := line_cells (mirror b) p row (COLS - 1 - col) (1, 1)) in *.
  set (m4 := line_cells (mirror b) p row (COLS - 1 - col) (1, -1)) in *.
  assert (length m1 = length l1) as H1
    by (by rewrite He, length_fmap).
  assert (length m2 = length l2) as H2 by (by rewrite Hs, length_fmap).
  assert (length m3 = length l4) as H3 by (by rewrite Hse, length_fmap).
  assert (length m4 = length l3) as H4 by (by rewrite Hsw, length_fmap).
  cbn [first_win]. rewrite H1, H2, H3, H4.
  destruct (4 <=? length l1)%nat eqn:E1.
  { split; [done|]. intros p' line' [= <- <-]. split; [done|].
    exists l1. split; [done|]. by rewrite decide_False by lia. }
  destruct (4 <=? length l2)%nat eqn:E2.
  { split; [done|]. intros p' line' [= <- <-]. split; [done|].
    exists l2. split; [done|]. rewrite decide_False by lia. by rewrite Hs. }
  destruct (4 <=? length l3)%nat eqn:E3, (4 <=? length l4)%nat eqn:E4;
    (split; [done|]); intros p' line' Hw'; [| | |done];
    injection Hw' as <- <-; (split; [done|]).
  - exists l3. split; [done|]. by rewrite decide_True by lia.
  - exists l3. split; [done|]. rewrite decide_False by lia. by rewrite Hsw.
  - exists l4. split; [done|]. rewrite decide_False by lia. by rewrite Hse.
Qed.

Lemma mirror_win_symmetric_witness :
  let b := board crossing in
  let p := current_player crossing in
  ∃ w w' east south south_east south_west,
    win_result_of <$> _check_winner crossing 3 3 = Some w
    ∧ win_result_of <$>
        _check_winner (set_board crossing (mirror b)) 3 (COLS - 1 - 3)
      = Some w'
    ∧ is_line b p 3 3 (0, 1) east
    ∧ is_line b p 3 3 (1, 0) south
    ∧ is_line b p 3 3 (1, 1) south_east
    ∧ is_line b p 3 3 (1, -1) south_west
    ∧ is_win w' = is_win w
    ∧ ∀ p' line', w' = Won p' line' →
        p' = p
        ∧ ∃ line,
            w = Won p line
            ∧ if decide ((length east < 4)%nat ∧ (length south < 4)%nat
                         ∧ (4 ≤ length south_east)%nat
                         ∧ (4 ≤ length south_west)%nat)
              then line = south_east
                   ∧ line' = mirror_coord <$> south_west
              else line' ≡ₚ mirror_coord <$> line.
Proof.
  apply (mirror_win_symmetric crossing 3 3).
  - split; [reflexivity|]. vm_compute. repeat constructor.
  - reflexivity.
Defined.

End ConnectFourFacts.

(** ** Tic-Tac-Toe *)

Module TicTacToeFacts.
Import TicTacToe.

(** A click on a free square places the marker and runs both checks. *)
Lemma first_click_trace :
  _on_click init 1 1
  = ({| board := [[None; None; None]; [None; Some X; None]; [None; None; None]];
        current_player := O; game_over := false |},
     [Ui (ButtonText 1 1 "X"); CallCheckWinner; CallIsBoardFull; Ui TurnLabel]).
Proof. reflexivity. Qed.

(** C10: while the game is in progress, a click on a square that already
    holds a marker does nothing: the board, the current player and the
    game-over flag are what they were, and the handler returns before it
    calls the win check or the draw check, and before any action on the
    user interface. *)
Theorem click_on_occupied_square self row col m :
  game_over self = false →
  0 ≤ row < SIZE → 0 ≤ col < SIZE →
  get (board self) row col = Some m →
  _on_click self row col = (self, []).
Proof.
  intros Hon _ _ Hcell. unfold _on_click. by rewrite Hon, Hcell.
Qed.

Lemma click_on_occupied_square_witness :
  _on_click (_on_click init 1 1).1 1 1 = ((_on_click init 1 1).1, []).
Proof.
  apply (click_on_occupied_square (_on_click init 1 1).1 1 1 X).
  - reflexivity.
  - unfold SIZE. lia.
  - unfold SIZE. lia.
  - reflexivity.
Defined.

End TicTacToeFacts.

(** ** The calculator *)

Module CalculatorFacts.
Import Calculator.

Section WithFloat.
Context `{PyFloat}.

(** The guard of [_calculate]: a division by zero does not leave it; the
    display becomes ["Error"] and the rest of the state stays. *)
Lemma divide_by_zero_guarded (self : calc) z :
  operation self = Some Div →
  float_of_string (current_input self) = Some z →
  is_zero z = true →
  _calculate self
  = Ok {| current_input := "Error"; operation := Some Div;
          stored_value := stored_value self; reset_screen := true |}.
Proof.
  intros Hop Hparse Hzero. unfold _calculate, calculate_try, py_float, py_div.
  rewrite Hparse, Hop. cbn [mbind result_bind]. by rewrite Hzero.
Qed.

(** What is on the display once the guard has fired is no float literal:
    [float] raises on it. *)
Lemma float_of_Error_raises : py_float "Error" = Raise ValueError.
Proof. unfold py_float. by rewrite float_of_string_Error. Qed.

(** The operator buttons call [float] on the display outside any [try]. *)
Lemma operator_on_Error_raises (self : calc) o :
  current_input self = "Error"%string → reset_screen self = true →
  _on_button_click self (Op o) = Raise ValueError.
Proof.
  intros Hshow Hreset. unfold _on_button_click.
  rewrite Hreset, andb_false_r, Hshow. cbn [mbind result_bind].
  by rewrite float_of_Error_raises.
Qed.

(** An operator button, when no calculation is pending on the display. *)
Lemma operator_press (self : calc) o x :
  operation self = None ∨ reset_screen self = true →
  float_of_string (current_input self) = Some x →
  _on_button_click self (Op o)
  = Ok {| current_input := current_input self; operation := Some o;
          stored_value := Float x; reset_screen := true |}.
Proof.
  intros Hidle Hparse. unfold _on_button_click, py_float.
  replace (bool_decide (operation self ≠ None) && negb (reset_screen self))
    with false.
  - cbn [mbind result_bind]. by rewrite Hparse.
  - destruct Hidle as [-> | ->]; [done|by rewrite andb_false_r].
Qed.

(** An operator button after a digit, when the pending division is by
    zero: the guard fires, and the operand is read from the display as it
    was before. *)
Lemma operator_press_zero_division (self : calc) o z :
  operation self = Some Div → reset_screen self = false →
  float_of_string (current_input self) = Some z → is_zero z = true →
  _on_button_click self (Op o)
  = Ok {| current_input := "Error"; operation := Some o;
          stored_value := Float z; reset_screen := true |}.
Proof.
  intros Hop Hreset Hparse Hzero. unfold _on_button_click.
  rewrite Hreset, Hop, (divide_by_zero_guarded self z) by done.
  cbn [bool_decide decide_rel andb negb mbind result_bind].
  rewrite bool_decide_eq_true_2 by done. cbn [andb mbind result_bind].
  unfold py_float. by rewrite Hparse.
Qed.

(** [=] when the pending division is by zero. *)
Lemma equals_press_zero_division (self : calc) z :
  operation self = Some Div →
  float_of_string (current_input self) = Some z → is_zero z = true →
  _on_button_click self Equals
  = Ok {| current_input := "Error"; operation := None;
          stored_value := stored_value self; reset_screen := true |}.
Proof.
  intros Hop Hparse Hzero. unfold _on_button_click.
  rewrite (divide_by_zero_guarded self z) by done. rewrite Hop.
  by rewrite bool_decide_eq_true_2 by done.
Qed.

(** [=] with ["Error"] on the display and an operation pending: the
    [ValueError] of [float] is not what the [except] of [_calculate]
    catches. *)
Lemma equals_on_Error_raises (self : calc) o :
  current_input self = "Error"%string → operation self = Some o →
  _on_button_click self Equals = Raise ValueError.
Proof.
  intros Hshow Hop. unfold _on_button_click, _calculate, calculate_try.
  rewrite Hop, Hshow, float_of_Error_raises.
  by rewrite bool_decide_eq_true_2 by done.
Qed.

Lemma presses_cons (self : calc) s ss :
  presses self (s :: ss)
  = _on_button_click self s ≫= λ self', presses self' ss.
Proof. reflexivity. Qed.

(** C9 fails on the code.  From the fresh calculator, the presses [/] and
    [=] divide 0 by 0: the guard catches the division and the display
    shows ["Error"].  The next press of an operator button calls
    [float("Error")] outside any [try], and the [ValueError] leaves the
    handler.  So does the [ValueError] of [_calculate] itself, which only
    catches [ZeroDivisionError], after the presses [/ 0 + =], all of them
    buttons of the calculator. *)
Theorem operator_after_error_raises :
  (∃ self,
     presses init [Op Div; Equals] = Ok self
     ∧ current_input self = "Error"%string
     ∧ ∀ o, _on_button_click self (Op o) = Raise ValueError)
  ∧ presses init [Op Div; Equals; Op Add] = Raise ValueError
  ∧ presses init [Op Div; Digit "0"; Op Add; Equals] = Raise ValueError
  ∧ forallb symbol_ok [Op Div; Digit "0"; Op Add; Equals] = true.
Proof.
  destruct float_of_string_0 as (z & Hparse & Hzero).
  split; [|split; [|split; [|reflexivity]]].
  - eexists. split; [|split].
    + rewrite presses_cons, (operator_press init Div z) by (by auto).
      cbn [mbind result_bind].
      rewrite presses_cons, (equals_press_zero_division _ z) by done.
      reflexivity.
    + reflexivity.
    + intros o. by apply operator_on_Error_raises.
  - rewrite presses_cons, (operator_press init Div z) by (by auto).
    cbn [mbind result_bind].
    rewrite presses_cons, (equals_press_zero_division _ z) by done.
    cbn [mbind result_bind].
    by rewrite presses_cons, operator_on_Error_raises.
  - rewrite presses_cons, (operator_press init Div z) by (by auto).
    cbn [mbind result_bind].
    rewrite presses_cons. cbn [_on_button_click reset_screen orb mbind result_bind].
    rewrite orb_true_r. cbn [mbind result_bind].
    rewrite presses_cons, (operator_press_zero_division _ Add z) by done.
    cbn [mbind result_bind].
    by rewrite presses_cons, (equals_on_Error_raises _ Add).
Qed.

End WithFloat.

#[local] Existing Instance integer_floats.

(** The failing presses, run on the integer model of the floats. *)
Lemma operator_after_error_raises_witness :
  (∃ self,
     presses init [Op Div; Equals] = Ok self
     ∧ current_input self = "Error"%string
     ∧ ∀ o, _on_button_click self (Op o) = Raise ValueError)
  ∧ presses init [Op Div; Equals; Op Add] = Raise ValueError
  ∧ presses init [Op Div; Digit "0"; Op Add; Equals] = Raise ValueError
  ∧ forallb symbol_ok [Op Div; Digit "0"; Op Add; Equals] = true.
Proof. apply (@operator_after_error_raises integer_floats). Defined.

End CalculatorFacts.

(** ** Counting cells *)

Section GridCountFacts.
Context {A : Type} (f : A → bool).

Lemma count_if_insert (l : list A) (i : nat) x y :
  l !! i = Some x →
  (count_if f (<[i:=y]> l) + (if f x then 1 else 0)
   = count_if f l + (if f y then 1 else 0))%nat.
Proof.
  revert i. induction l as [|z l IH]; intros [|i] Hi; try done.
  - injection Hi as ->. cbn [count_if]. simpl. lia.
  - cbn [count_if]. change (<[S i:=y]> (z :: l)) with (z :: <[i:=y]> l).
    cbn [count_if]. specialize (IH i Hi). lia.
Qed.

Lemma grid_count_alter (g : list (list A)) (i : nat) (h : list A → list A)
    row (k k' : nat) :
  g !! i = Some row →
  (count_if f (h row) + k = count_if f row + k')%nat →
  (grid_count f (alter h i g) + k = grid_count f g + k')%nat.
Proof.
  unfold grid_count. revert i.
  induction g as [|row0 g IH]; intros [|i] Hi Hrow; try done.
  - injection Hi as ->. cbn [alter list_alter map list_sum]. simpl. lia.
  - change (alter h (S i) (row0 :: g)) with (row0 :: alter h i g).
    cbn [map list_sum fold_right]. specialize (IH i Hi Hrow).
    unfold list_sum in IH. lia.
Qed.

(** [g[r][c] = y] takes the old cell out of the count and puts [y] in. *)
Lemma grid_count_set dflt rows cols (g : list (list A)) r c y :
  grid_wf rows cols g → 0 ≤ r < rows → 0 ≤ c < cols →
  (grid_count f (grid_set g r c y)
   + (if f (grid_get dflt g r c) then 1 else 0)
   = grid_count f g + (if f y then 1 else 0))%nat.
Proof.
  intros Hwf Hr Hc.
  destruct (grid_get_lookup dflt rows cols g r c Hwf Hr Hc)
    as (row & x & Hrow & Hx & ->).
  unfold grid_set. apply (grid_count_alter _ _ _ row); [done|].
  by apply count_if_insert.
Qed.

End GridCountFacts.

(** ** Connect Four: the rules of the game *)

Module ConnectFourRules.
Import ConnectFour ConnectFourFacts.

Implicit Types (b : list (list cell)) (p : color) (self : game).

(** *** Four in a row through the cell placed *)

Lemma length_ray sr sc r c n : length (ray sr sc r c n) = n.
Proof. unfold ray. by rewrite length_map, length_seq. Qed.

(** The cells of a run, by their distance from the origin of the line. *)
Lemma is_run_owned b p sr sc row col cells :
  is_run b p sr sc (row + sr) (col + sc) cells →
  (∀ j, 1 ≤ j ≤ Z.of_nat (length cells) →
     owned b p (row + j * sr, col + j * sc) = true)
  ∧ owned b p (row + (Z.of_nat (length cells) + 1) * sr,
               col + (Z.of_nat (length cells) + 1) * sc) = false.
Proof.
  intros (n & -> & Hall & Hstop). rewrite length_ray. split.
  - intros j Hj.
    pose proof (ray_owned b p sr sc (row + sr) (col + sc) n (Z.to_nat (j - 1))
                  Hall) as Hown.
    rewrite Z2Nat.id in Hown by lia.
    rewrite <- Hown by lia. f_equal. f_equal; lia.
  - rewrite <- Hstop. f_equal. f_equal; lia.
Qed.

Lemma is_line_four b p row col d line :
  is_line b p row col d line →
  owned b p (row, col) = true →
  (4 ≤ length line)%nat ↔ four_in_a_row b p row col d.
Proof.
  intros (pos & neg & Hpos & Hneg & ->) Horigin.
  apply is_run_owned in Hpos as [Hpos Hpos_stop].
  apply is_run_owned in Hneg as [Hneg Hneg_stop].
  cbn [length]. rewrite length_app.
  set (n := length pos) in *. set (m := length neg) in *.
  split.
  - intros Hlong. exists (Z.min (Z.of_nat m) 3). split; [lia|].
    intros i Hi.
    set (k := Z.min (Z.of_nat m) 3) in *.
    destruct (Z.lt_trichotomy i k) as [Hlt|[->|Hgt]].
    + rewrite <- (Hneg (k - i)) by lia. f_equal. f_equal; lia.
    + rewrite <- Horigin. f_equal. f_equal; lia.
    + rewrite <- (Hpos (i - k)) by lia. f_equal. f_equal; lia.
  - intros (k & Hk & Hfour).
    assert (3 - k ≤ Z.of_nat n) as Hn.
    { destruct (decide (3 - k ≤ Z.of_nat n)) as [|Hshort]; [done|].
      assert (owned b p (row + (Z.of_nat n + 1) * d.1,
                         col + (Z.of_nat n + 1) * d.2) = true) as Hown.
      { rewrite <- (Hfour (k + (Z.of_nat n + 1))) by lia. f_equal. f_equal; lia. }
      congruence. }
    assert (k ≤ Z.of_nat m) as Hm.
    { destruct (decide (k ≤ Z.of_nat m)) as [|Hshort]; [done|].
      assert (owned b p (row + (Z.of_nat m + 1) * - d.1,
                         col + (Z.of_nat m + 1) * - d.2) = true) as Hown.
      { rewrite <- (Hfour (k - (Z.of_nat m + 1))) by lia. f_equal. f_equal; lia. }
      congruence. }
    lia.
Qed.

Lemma is_win_first_win p lines :
  is_win (first_win p lines) = true
  ↔ ∃ line, line ∈ lines ∧ (4 ≤ length line)%nat.
Proof.
  induction lines as [|l lines IH]; cbn [first_win].
  - split; [done|]. intros (line & Hin & _). by apply elem_of_nil in Hin.
  - destruct (4 <=? length l)%nat eqn:Hlen.
    + split; [|done]. intros _. exists l. split; [left|lia].
    + rewrite IH. split.
      * intros (line & Hin & Hlong). exists line. split; [by right|done].
      * intros (line & Hin & Hlong). exists line. split; [|done].
        apply elem_of_cons in Hin as [->|Hin]; [lia|done].
Qed.

Lemma checkWin_iff_four_in_a_row b p row col :
  owned b p (row, col) = true →
  is_win (checkWin b row col p) = true
  ↔ ∃ d, d ∈ directions ∧ four_in_a_row b p row col d.
Proof.
  intros Horigin. unfold checkWin. rewrite is_win_first_win. split.
  - intros (line & [d [-> Hd]]%list_elem_of_fmap & Hlong).
    exists d. split; [done|].
    by apply (is_line_four b p row col d (line_cells b p row col d));
      [apply line_cells_is_line|..].
  - intros (d & Hd & Hfour). exists (line_cells b p row col d).
    split; [by apply list_elem_of_fmap_2|].
    by apply (is_line_four b p row col d); [apply line_cells_is_line|..].
Qed.

Lemma check_winner_Won self row col :
  ∀ line,
    checkWin (board self) row col (current_player self)
    = Won (current_player self) line
    ↔ _check_winner self row col = Some (Some (current_player self), line).
Proof.
  intros line. pose proof (check_winner_checkWin self row col) as Hcw.
  destruct (_check_winner self row col) as [[[w|] coords]|];
    cbn [fmap option_fmap option_map win_result_of] in Hcw; [| |done].
  - injection Hcw as Hcw. rewrite <- Hcw. split; [by intros [= -> ->]|].
    by intros [= -> ->].
  - injection Hcw as Hcw. rewrite <- Hcw. split; [done|by intros [= ?]].
Qed.

Lemma checkWin_player b row col p q line :
  checkWin b row col p = Won q line → q = p.
Proof. by intros (-> & _)%first_win_Won. Qed.

(** X1: on a 6×7 board, when the cell [(row, col)] holds a disc of the
    player to move, [_check_winner] reports a win, for that player, exactly
    when the cell is one of four consecutive cells of the player in a row
    (step [(0, 1)]), a column ([(1, 0)]), a diagonal down-right ([(1, 1)])
    or a diagonal down-left ([(1, -1)]). *)
Theorem check_winner_iff_four_in_a_row self row col :
  board_wf (board self) →
  owned (board self) (current_player self) (row, col) = true →
  (∃ coords,
     _check_winner self row col = Some (Some (current_player self), coords))
  ↔ four_in_a_row (board self) (current_player self) row col (0, 1)
    ∨ four_in_a_row (board self) (current_player self) row col (1, 0)
    ∨ four_in_a_row (board self) (current_player self) row col (1, 1)
    ∨ four_in_a_row (board self) (current_player self) row col (1, -1).
Proof.
  intros _ Horigin.
  trans (∃ d, d ∈ directions
              ∧ four_in_a_row (board self) (current_player self) row col d).
  2:{ unfold directions. split.
      - intros (d & Hd & Hfour).
        rewrite !elem_of_cons, elem_of_nil in Hd.
        destruct Hd as [->|[->|[->|[->|[]]]]]; auto.
      - intros [Hfour|[Hfour|[Hfour|Hfour]]]; eexists; (split; [|exact Hfour]);
          in_list. }
  rewrite <- checkWin_iff_four_in_a_row by done. split.
  - intros (coords & Hwin%check_winner_Won). by rewrite Hwin.
  - intros Hwin.
    destruct (checkWin (board self) row col (current_player self))
      as [|q line] eqn:Hcw; [done|].
    pose proof (checkWin_player _ _ _ _ _ _ Hcw) as ->.
    exists line. by apply check_winner_Won.
Qed.

Lemma check_winner_iff_four_in_a_row_witness :
  (∃ coords,
     _check_winner crossing 3 3 = Some (Some (current_player crossing), coords))
  ↔ four_in_a_row (board crossing) (current_player crossing) 3 3 (0, 1)
    ∨ four_in_a_row (board crossing) (current_player crossing) 3 3 (1, 0)
    ∨ four_in_a_row (board crossing) (current_player crossing) 3 3 (1, 1)
    ∨ four_in_a_row (board crossing) (current_player crossing) 3 3 (1, -1).
Proof.
  apply (check_winner_iff_four_in_a_row crossing 3 3).
  - split; [reflexivity|]. vm_compute. repeat constructor.
  - reflexivity.
Defined.

(** *** What a click does to the game *)

(** The three ways a disc dropped ends the click: a win, a draw, the other
    player's turn. *)
Lemma on_click_outcome self x b' rc :
  game_over self = false → 0 ≤ x / CELL < COLS →
  drop (board self) (current_player self) (x / CELL) = Some (b', rc) →
  ∃ out,
    _on_click self x
    = Some (match checkWin b' rc.1 (x / CELL) (current_player self) with
            | Won _ line =>
                {| board := b'; current_player := current_player self;
                   game_over := true; win_coords := line;
                   hover_col := hover_col self |}
            | NoWin =>
                if _is_board_full (set_board self b')
                then {| board := b'; current_player := current_player self;
                        game_over := true; win_coords := win_coords self;
                        hover_col := hover_col self |}
                else {| board := b';
                        current_player := other_player (current_player self);
                        game_over := false; win_coords := win_coords self;
                        hover_col := hover_col self |}
            end, out).
Proof.
  intros Hon Hcol Hdrop. unfold _on_click. rewrite Hon, Hdrop.
  replace (negb ((0 <=? x / CELL) && (x / CELL <? COLS))) with false by lia.
  cbv zeta. destruct rc as [r c]. cbn [fst].
  pose proof (check_winner_checkWin (set_board self b') r (x / CELL)) as Hcw.
  cbn [set_board board current_player] in Hcw.
  destruct (_check_winner (set_board self b') r (x / CELL))
    as [[[w|] coords]|]; cbn [fmap option_fmap option_map win_result_of] in Hcw;
    [| |done]; injection Hcw as <-; cbn [mbind option_bind].
  - by eexists.
  - destruct (_is_board_full (set_board self b')); [by eexists|].
    eexists. unfold set_current_player, set_board. cbn. by rewrite Hon.
Qed.

(** *** No four in a row goes unnoticed *)

Lemma color_eqb_eq (p q : color) : color_eqb p q = true ↔ p = q.
Proof. by destruct p, q. Qed.

Lemma owned_spec b p r c :
  owned b p (r, c) = true ↔ in_bounds r c = true ∧ get b r c = Some p.
Proof.
  unfold owned, cell_is. cbn [fst snd]. rewrite andb_true_iff.
  destruct (get b r c) as [q|].
  - rewrite color_eqb_eq. split; intros [? ?]; split; congruence.
  - split; intros [? ?]; done.
Qed.

Lemma no_four_empty_board : no_four empty_board.
Proof.
  intros p r c d _ Hfour. specialize (Hfour 0 ltac:(lia)).
  apply owned_spec in Hfour as [_ Hdisc].
  by rewrite get_empty_board in Hdisc.
Qed.

(** A disc dropped that does not win leaves the board without four in a
    row: four cells that include the disc would have been found by the
    check, and four cells that do not were there before. *)
Lemma no_four_drop b p col b' r :
  board_wf b → 0 ≤ col < COLS →
  drop b p col = Some (b', (r, col)) →
  no_four b →
  is_win (checkWin b' r col p) = false →
  no_four b'.
Proof.
  intros Hwf Hcol Hdrop Hnone Hnowin q r0 c0 d Hd Hfour.
  pose proof (drop_spec b p col Hwf Hcol) as Hspec. rewrite Hdrop in Hspec.
  destruct Hspec as (_ & Hr & _ & _ & Hset & Hframe & _).
  assert ((∃ i, 0 ≤ i ≤ 3 ∧ (r0 + i * d.1, c0 + i * d.2) = (r, col))
          ∨ ∀ i, 0 ≤ i ≤ 3 → (r0 + i * d.1, c0 + i * d.2) ≠ (r, col))
    as [(i & Hi & Hcell)|Hother].
  { destruct (decide ((r0 + 0 * d.1, c0 + 0 * d.2) = (r, col)));
      [left; exists 0; split; [lia|done]|].
    destruct (decide ((r0 + 1 * d.1, c0 + 1 * d.2) = (r, col)));
      [left; exists 1; split; [lia|done]|].
    destruct (decide ((r0 + 2 * d.1, c0 + 2 * d.2) = (r, col)));
      [left; exists 2; split; [lia|done]|].
    destruct (decide ((r0 + 3 * d.1, c0 + 3 * d.2) = (r, col)));
      [left; exists 3; split; [lia|done]|].
    right. intros i Hi.
    assert (i = 0 ∨ i = 1 ∨ i = 2 ∨ i = 3) as [->|[->|[->| ->]]] by lia; done. }
  - injection Hcell as Hr0 Hc0.
    assert (q = p) as ->.
    { specialize (Hfour i Hi). rewrite Hr0, Hc0 in Hfour.
      apply owned_spec in Hfour as [_ Hq]. congruence. }
    assert (owned b' p (r, col) = true) as Horigin.
    { specialize (Hfour i Hi). by rewrite Hr0, Hc0 in Hfour. }
    apply not_true_iff_false in Hnowin. apply Hnowin.
    apply checkWin_iff_four_in_a_row; [done|]. exists d. split; [done|].
    exists i. split; [done|]. intros j Hj.
    rewrite <- (Hfour j Hj). f_equal. f_equal; lia.
  - apply (Hnone q r0 c0 d Hd). intros i Hi.
    specialize (Hfour i Hi). apply owned_spec in Hfour as [Hin Hq].
    apply owned_spec. split; [done|].
    rewrite <- Hq. symmetry. apply Hframe; [..|by apply Hother];
      unfold in_bounds in Hin; lia.
Qed.

Lemma settled_init : settled init.
Proof.
  split; [done|]. split; [by vm_compute|]. apply no_four_empty_board.
Qed.

Lemma settled_hover self h : settled self → settled (set_hover_col self h).
Proof. done. Qed.

Lemma is_board_full_false self :
  _is_board_full self = false
  → ∃ c, 0 ≤ c < COLS ∧ get (board self) 0 c = None.
Proof.
  unfold _is_board_full. intros Hfull.
  assert (∀ l, forallb (λ c, bool_decide (get (board self) 0 c ≠ None)) l
               = false → ∃ c, In c l ∧ get (board self) 0 c = None) as Hex.
  { induction l as [|c l IH]; [done|]. cbn [forallb].
    destruct (get (board self) 0 c) eqn:Hcell.
    - rewrite bool_decide_eq_true_2 by done.
      intros (c' & Hin & Hc')%IH. exists c'. split; [by right|done].
    - intros _. exists c. split; [by left|done]. }
  destruct (Hex _ Hfull) as (c & Hc%in_py_range & Hempty). eauto.
Qed.

Lemma run_cells_owned b p sr sc n :
  ∀ r c, Forall (λ rc, owned b p rc = true) (run_cells n b p sr sc r c).
Proof.
  induction n as [|n IH]; intros r c; cbn [run_cells]; [constructor|].
  destruct (owned b p (r, c)) eqn:Hown; constructor; [done|apply IH].
Qed.

(** One event keeps [settled]. *)
Lemma settled_step self e self' out :
  board_wf (board self) → settled self →
  handle self e = Some (self', out) → settled self'.
Proof.
  intros Hwf Hinv Hstep. destruct e as [x|x|char|]; cbn [handle] in Hstep.
  - destruct (game_over self) eqn:Hon.
    { unfold _on_click in Hstep. rewrite Hon in Hstep. by injection Hstep as <- _. }
    destruct (decide (0 ≤ x / CELL < COLS)) as [Hcol|Hcol].
    2:{ unfold _on_click in Hstep. rewrite Hon in Hstep.
        replace (negb ((0 <=? x / CELL) && (x / CELL <? COLS))) with true
          in Hstep by lia.
        by injection Hstep as <- _. }
    destruct (drop (board self) (current_player self) (x / CELL))
      as [[b' [r c]]|] eqn:Hdrop.
    2:{ pose proof (on_click_board self x Hon Hcol) as Hclick.
        rewrite Hdrop, Hstep in Hclick. by injection Hclick as <- _. }
    pose proof (drop_spec (board self) (current_player self) (x / CELL)
                  Hwf Hcol) as Hspec.
    rewrite Hdrop in Hspec.
    destruct Hspec as (-> & Hr & _ & _ & Hset & _ & Hwf').
    destruct (on_click_outcome self x b' (r, x / CELL) Hon Hcol Hdrop)
      as (out' & Hclick).
    rewrite Hstep in Hclick. injection Hclick as -> _. cbn [fst].
    unfold settled in Hinv. rewrite Hon in Hinv.
    destruct Hinv as (Hnoline & _ & Hnone).
    assert (owned b' (current_player self) (r, x / CELL) = true) as Horigin.
    { apply owned_spec. split; [unfold in_bounds; lia|done]. }
    destruct (checkWin b' r (x / CELL) (current_player self))
      as [|q line] eqn:Hcw.
    + assert (no_four b') as Hnone'.
      { apply (no_four_drop (board self) (current_player self) (x / CELL) b' r);
          [done..|by rewrite Hcw]. }
      destruct (_is_board_full (set_board self b')) eqn:Hfull.
      * left. by split_and!.
      * by split_and!.
    + right. apply first_win_Won in Hcw as (-> & Hline & Hlong).
      apply list_elem_of_fmap in Hline as (d & -> & Hd).
      exists r, (x / CELL), d. cbn [board current_player win_coords].
      split; [done|]. split; [done|]. split; [|done].
      by apply line_cells_is_line.
  - injection Hstep as Hstep. unfold _on_motion in Hstep.
    repeat case_match; injection Hstep as <- _; done.
  - injection Hstep as Hstep. unfold _on_key in Hstep.
    destruct (is_reset_key char); injection Hstep as <- _;
      [apply settled_init|done].
  - injection Hstep as <- _. apply settled_init.
Qed.

Lemma reachable_settled self : reachable self → settled self.
Proof.
  intros [es Hrun].
  assert (∀ es self0 self1,
            board_wf (board self0) → gravity (board self0) → settled self0 →
            run self0 es = Some self1 → settled self1) as Hall.
  { clear. induction es as [|e es IH]; intros self0 self1 Hwf Hgrav Hinv Hrun;
      cbn [run] in Hrun.
    - by injection Hrun as <-.
    - destruct (handle self0 e) as [[self' out]|] eqn:Hstep; [|done].
      cbn [mbind option_bind] in Hrun.
      destruct (handle_invariant self0 e self' out) as [Hwf' Hgrav'];
        [done..|].
      apply (IH self' self1); [done..| |done].
      by apply (settled_step self0 e self' out). }
  apply (Hall es init); [apply empty_board_wf|apply gravity_empty_board
                        |apply settled_init|done].
Qed.

Lemma drawn_run : run init (clicks drawn_moves) = Some drawn.
Proof. vm_compute. reflexivity. Qed.

Lemma drawn_status : status drawn = Drawn.
Proof. vm_compute. reflexivity. Qed.

Lemma is_line_owned b p row col d line :
  is_line b p row col d line →
  owned b p (row, col) = true →
  ∀ rc, rc ∈ line → owned b p rc = true.
Proof.
  intros (pos & neg & (n & _ & Hpos & _) & (m & _ & Hneg & _) & ->) Horigin rc.
  rewrite elem_of_cons, elem_of_app, !Forall_forall in *.
  intros [->|[Hin|Hin]]; auto.
Qed.

(** X2: in every state the event loop reaches, a won game has the player
    to move as its winner, and the line it marks has at least four cells,
    every one of them a cell of the board that holds a disc of the winner;
    the line is the coordinate list of one of the four directions through
    one of its cells. *)
Theorem won_game_marks_line_of_winner self p line :
  reachable self →
  status self = StatusWon p line →
  p = current_player self
  ∧ (4 ≤ length line)%nat
  ∧ (∀ rc, rc ∈ line → owned (board self) p rc = true)
  ∧ ∃ row col d,
      d ∈ directions ∧ (row, col) ∈ line
      ∧ is_line (board self) p row col d line.
Proof.
  intros Hinv%reachable_settled Hstatus. unfold status, settled in *.
  destruct (game_over self); [|done].
  destruct (win_coords self) as [|rc0 coords] eqn:Hcoords; [done|].
  injection Hstatus as <- <-.
  destruct Hinv as [[? _]|(row & col & d & Hd & Horigin & Hline & Hlong)];
    [done|].
  split; [done|]. split; [done|].
  split; [by apply (is_line_owned _ _ row col d)|].
  exists row, col, d. split; [done|]. split; [|done].
  destruct Hline as (pos & neg & _ & _ & ->). left.
Qed.

Lemma won_game_marks_line_of_winner_witness :
  RED = current_player crossing
  ∧ (4 ≤ length (win_coords crossing))%nat
  ∧ (∀ rc, rc ∈ win_coords crossing → owned (board crossing) RED rc = true)
  ∧ ∃ row col d,
      d ∈ directions ∧ (row, col) ∈ win_coords crossing
      ∧ is_line (board crossing) RED row col d (win_coords crossing).
Proof.
  apply (won_game_marks_line_of_winner crossing RED (win_coords crossing)).
  - exists (clicks crossing_moves). vm_compute. reflexivity.
  - vm_compute. reflexivity.
Defined.

(** X3: the check at the cell placed last misses nothing.  In every state
    the event loop reaches in which the game is in progress or drawn, no
    player has four consecutive discs anywhere on the board, be it along a
    row (step [(0, 1)]), a column ([(1, 0)]), a diagonal down-right
    ([(1, 1)]) or a diagonal down-left ([(1, -1)]). *)
Theorem no_four_in_a_row_unless_won self :
  reachable self →
  status self = InProgress ∨ status self = Drawn →
  ∀ p r c d,
    d ∈ [(0, 1); (1, 0); (1, 1); (1, -1)] → ¬ four_at (board self) p r c d.
Proof.
  intros Hinv%reachable_settled Hstatus. fold (no_four (board self)).
  unfold status, settled in *.
  destruct (game_over self).
  - destruct (win_coords self) as [|rc0 coords] eqn:Hcoords.
    + destruct Hinv as [(_ & _ & Hnone)|(? & ? & ? & _ & _ & _ & Hlong)];
        [done|]. cbn in Hlong. lia.
    + by destruct Hstatus.
  - by destruct Hinv as (_ & _ & Hnone).
Qed.

Lemma no_four_in_a_row_unless_won_witness :
  status drawn = Drawn ∧ ¬ four_at (board drawn) RED 2 0 (1, 0).
Proof.
  split; [vm_compute; reflexivity|].
  apply (no_four_in_a_row_unless_won drawn).
  - exists (clicks drawn_moves). vm_compute. reflexivity.
  - right. vm_compute. reflexivity.
  - in_list.
Defined.

(** X4: a draw is declared only on a full board: in every state the event
    loop reaches in which the game is drawn, every cell of the board holds
    a disc. *)
Theorem drawn_game_has_full_board self :
  reachable self →
  status self = Drawn →
  ∀ r c, 0 ≤ r < ROWS → 0 ≤ c < COLS → get (board self) r c ≠ None.
Proof.
  intros Hreach Hstatus r c Hr Hc.
  destruct (reachable_invariant self Hreach) as [_ Hgrav].
  apply reachable_settled in Hreach as Hinv. unfold status, settled in *.
  destruct (game_over self); [|done].
  destruct (win_coords self) as [|rc0 coords] eqn:Hcoords; [|done].
  destruct Hinv as [(_ & Hfull & _)|(? & ? & ? & _ & _ & _ & Hlong)].
  - apply gravity_column_full; [done..| |done].
    by apply is_board_full_top_row.
  - cbn in Hlong. lia.
Qed.

Lemma drawn_game_has_full_board_witness :
  status drawn = Drawn ∧ get (board drawn) 0 0 ≠ None.
Proof.
  split; [vm_compute; reflexivity|].
  apply (drawn_game_has_full_board drawn).
  - exists (clicks drawn_moves). vm_compute. reflexivity.
  - vm_compute. reflexivity.
  - unfold ROWS. lia.
  - unfold COLS. lia.
Defined.

(** X5: the game cannot get stuck: in every state the event loop reaches
    in which the game is in progress, no line is marked and some column
    still takes a disc of the player to move. *)
Theorem game_in_progress_has_a_move self :
  reachable self →
  status self = InProgress →
  win_coords self = []
  ∧ ∃ col b' r,
      0 ≤ col < COLS
      ∧ drop (board self) (current_player self) col = Some (b', (r, col)).
Proof.
  intros Hreach Hstatus.
  destruct (reachable_invariant self Hreach) as [Hwf _].
  apply reachable_settled in Hreach as Hinv. unfold status, settled in *.
  destruct (game_over self); [by case_match|].
  destruct Hinv as (Hnoline & Hfull & _). split; [done|].
  apply is_board_full_false in Hfull as (col & Hcol & Hempty).
  pose proof (drop_spec (board self) (current_player self) col Hwf Hcol)
    as Hspec.
  destruct (drop (board self) (current_player self) col) as [[b' [r c]]|]
    eqn:Hdrop.
  - destruct Hspec as (-> & _). by exists col, b', r.
  - destruct (Hspec 0); [unfold ROWS; lia|done].
Qed.

Lemma game_in_progress_has_a_move_witness :
  win_coords stacked = []
  ∧ ∃ col b' r,
      0 ≤ col < COLS
      ∧ drop (board stacked) (current_player stacked) col = Some (b', (r, col)).
Proof.
  apply (game_in_progress_has_a_move stacked).
  - exists (clicks [0; 0; 0; 0; 0; 0]). vm_compute. reflexivity.
  - vm_compute. reflexivity.
Defined.

(** *** Turns and discs *)

Lemma drop_discs b p col b' rc q :
  board_wf b → 0 ≤ col < COLS →
  drop b p col = Some (b', rc) →
  discs q b' = (discs q b + (if color_eqb p q then 1 else 0))%nat.
Proof.
  intros Hwf Hcol Hdrop.
  pose proof (find_target_row_spec b col) as Hfind. unfold drop in Hdrop.
  destruct (find_target_row b col) as [r|]; [|done].
  cbn [mbind option_bind] in Hdrop. injection Hdrop as <- <-.
  destruct Hfind as (Hr & Hempty & _).
  pose proof (grid_count_set (is_disc q) None ROWS COLS b r col (Some p)
                Hwf Hr Hcol) as Hcount.
  change (grid_get None b r col) with (get b r col) in Hcount.
  rewrite Hempty in Hcount. unfold discs. cbn [is_disc] in Hcount. lia.
Qed.

Lemma other_player_other p : other_player (other_player p) = p.
Proof. by destruct p. Qed.

Lemma on_motion_fields self x :
  board (_on_motion self x).1 = board self
  ∧ current_player (_on_motion self x).1 = current_player self
  ∧ game_over (_on_motion self x).1 = game_over self
  ∧ win_coords (_on_motion self x).1 = win_coords self.
Proof. unfold _on_motion. by repeat case_match. Qed.

(** Whatever a drop leads to, the player who dropped is the last mover. *)
Lemma click_drop_last_mover self x b' rc self' out :
  game_over self = false → 0 ≤ x / CELL < COLS →
  drop (board self) (current_player self) (x / CELL) = Some (b', rc) →
  _on_click self x = Some (self', out) →
  board self' = b' ∧ last_mover self' = current_player self.
Proof.
  intros Hon Hcol Hdrop Hstep.
  destruct (on_click_outcome self x b' rc Hon Hcol Hdrop) as (out' & Hclick).
  rewrite Hstep in Hclick. injection Hclick as -> _.
  destruct (checkWin b' rc.1 (x / CELL) (current_player self)); [|done].
  destruct (_is_board_full (set_board self b')); [done|].
  unfold last_mover. cbn. by rewrite other_player_other.
Qed.

(** One event keeps the count of discs in step with the turns. *)
Lemma discs_step self e self' out :
  board_wf (board self) →
  handle self e = Some (self', out) →
  discs RED (board self)
  = (discs YELLOW (board self)
     + match last_mover self with RED => 1 | YELLOW => 0 end)%nat →
  discs RED (board self')
  = (discs YELLOW (board self')
     + match last_mover self' with RED => 1 | YELLOW => 0 end)%nat.
Proof.
  intros Hwf Hstep Hcount. destruct e as [x|x|char|]; cbn [handle] in Hstep.
  - destruct (game_over self) eqn:Hon.
    { unfold _on_click in Hstep. rewrite Hon in Hstep. by injection Hstep as <- _. }
    destruct (decide (0 ≤ x / CELL < COLS)) as [Hcol|Hcol].
    2:{ unfold _on_click in Hstep. rewrite Hon in Hstep.
        replace (negb ((0 <=? x / CELL) && (x / CELL <? COLS))) with true
          in Hstep by lia.
        by injection Hstep as <- _. }
    destruct (drop (board self) (current_player self) (x / CELL))
      as [[b' rc]|] eqn:Hdrop.
    2:{ pose proof (on_click_board self x Hon Hcol) as Hclick.
        rewrite Hdrop, Hstep in Hclick. by injection Hclick as <- _. }
    destruct (click_drop_last_mover self x b' rc self' out) as [-> ->];
      [done..|].
    rewrite (drop_discs _ _ _ _ _ RED Hwf Hcol Hdrop).
    rewrite (drop_discs _ _ _ _ _ YELLOW Hwf Hcol Hdrop).
    unfold last_mover in Hcount. rewrite Hon in Hcount.
    destruct (current_player self); cbn in *; lia.
  - injection Hstep as Hstep.
    destruct (on_motion_fields self x) as (Hb & Hp & Hg & _).
    rewrite Hstep in Hb, Hp, Hg. cbn [fst] in Hb, Hp, Hg.
    unfold last_mover in *. by rewrite Hb, Hp, Hg.
  - injection Hstep as Hstep. unfold _on_key in Hstep.
    destruct (is_reset_key char); injection Hstep as <- _; done.
  - injection Hstep as <- _. done.
Qed.

(** X6: the players take turns, RED first.  In every state the event loop
    reaches, RED has as many discs on the board as YELLOW, and one more
    when RED moved last; so, while the game is on, the two have equally
    many when it is RED's turn and RED has one more when it is YELLOW's. *)
Theorem discs_follow_turns self :
  reachable self →
  discs RED (board self)
  = (discs YELLOW (board self)
     + match last_mover self with RED => 1 | YELLOW => 0 end)%nat
  ∧ (game_over self = false →
     match current_player self with
     | RED => discs RED (board self) = discs YELLOW (board self)
     | YELLOW => discs RED (board self) = S (discs YELLOW (board self))
     end).
Proof.
  intros [es Hrun].
  assert (∀ es self0 self1,
            board_wf (board self0) → gravity (board self0) →
            discs RED (board self0)
            = (discs YELLOW (board self0)
               + match last_mover self0 with RED => 1 | YELLOW => 0 end)%nat →
            run self0 es = Some self1 →
            discs RED (board self1)
            = (discs YELLOW (board self1)
               + match last_mover self1 with RED => 1 | YELLOW => 0 end)%nat)
    as Hall.
  { clear. induction es as [|e es IH]; intros self0 self1 Hwf Hgrav Hinv Hrun;
      cbn [run] in Hrun.
    - by injection Hrun as <-.
    - destruct (handle self0 e) as [[self' out]|] eqn:Hstep; [|done].
      cbn [mbind option_bind] in Hrun.
      destruct (handle_invariant self0 e self' out) as [Hwf' Hgrav'];
        [done..|].
      apply (IH self' self1); [done..| |done].
      by apply (discs_step self0 e self' out). }
  assert (discs RED (board self)
          = (discs YELLOW (board self)
             + match last_mover self with RED => 1 | YELLOW => 0 end)%nat)
    as Hcount.
  { apply (Hall es init); [apply empty_board_wf|apply gravity_empty_board
                          |done|done]. }
  split; [done|]. intros Hon. unfold last_mover in Hcount.
  rewrite Hon in Hcount. destruct (current_player self); cbn in Hcount; lia.
Qed.

Lemma discs_follow_turns_witness :
  discs RED (board crossing)
  = (discs YELLOW (board crossing)
     + match last_mover crossing with RED => 1 | YELLOW => 0 end)%nat
  ∧ (game_over crossing = false →
     match current_player crossing with
     | RED => discs RED (board crossing) = discs YELLOW (board crossing)
     | YELLOW => discs RED (board crossing) = S (discs YELLOW (board crossing))
     end).
Proof.
  apply (discs_follow_turns crossing).
  exists (clicks crossing_moves). vm_compute. reflexivity.
Defined.

(** *** The pointer *)

(** X7: a click to the left or to the right of the seven columns is
    ignored, whatever the state of the game: the state stays as it is and
    nothing is drawn or shown. *)
Theorem click_off_board_ignored self x :
  x < 0 ∨ COLS * CELL ≤ x →
  _on_click self x = Some (self, []).
Proof.
  intros Hoff. unfold _on_click. destruct (game_over self); [done|].
  replace (negb ((0 <=? x / CELL) && (x / CELL <? COLS))) with true; [done|].
  unfold COLS, CELL in *. Z.to_euclidean_division_equations. lia.
Qed.

Lemma click_off_board_ignored_witness :
  _on_click stacked 630 = Some (stacked, []).
Proof.
  apply (click_off_board_ignored stacked 630). right. unfold COLS, CELL. lia.
Defined.

(** X8: moving the pointer only moves the highlight.  [_on_motion] leaves
    the board, the current player, the game-over flag and the marked line
    as they are; the column it highlights afterwards is the column of the
    board under the pointer, and none when the pointer is off the board
    or the game is over; while the game is on, it redraws the board
    exactly when the highlighted column has changed. *)
Theorem motion_only_moves_highlight self x :
  board (_on_motion self x).1 = board self
  ∧ current_player (_on_motion self x).1 = current_player self
  ∧ game_over (_on_motion self x).1 = game_over self
  ∧ win_coords (_on_motion self x).1 = win_coords self
  ∧ hover_col (_on_motion self x).1
    = (if game_over self then None
       else if bool_decide (0 ≤ x < COLS * CELL) then Some (x / CELL)
            else None)
  ∧ (∀ c, hover_col (_on_motion self x).1 = Some c →
          0 ≤ c < COLS ∧ c * CELL ≤ x < (c + 1) * CELL)
  ∧ (game_over self = false →
     ((_on_motion self x).2 = []
      ↔ hover_col (_on_motion self x).1 = hover_col self)).
Proof.
  assert ((0 <=? x / CELL) && (x / CELL <? COLS)
          = bool_decide (0 ≤ x < COLS * CELL)) as Hcol.
  { destruct (decide (0 ≤ x < COLS * CELL)) as [Hin|Hout].
    - rewrite bool_decide_eq_true_2 by done. unfold COLS, CELL in *.
      Z.to_euclidean_division_equations. lia.
    - rewrite bool_decide_eq_false_2 by done. unfold COLS, CELL in *.
      Z.to_euclidean_division_equations. lia. }
  assert (∀ c, Some (x / CELL) = Some c → 0 ≤ x < COLS * CELL →
               0 ≤ c < COLS ∧ c * CELL ≤ x < (c + 1) * CELL) as Hunder.
  { intros c [= <-] Hin. unfold COLS, CELL in *.
    Z.to_euclidean_division_equations. lia. }
  unfold _on_motion. rewrite Hcol.
  destruct (game_over self) eqn:Hon; [cbn; by repeat split|].
  case_bool_decide as Hin; case_bool_decide as Hne;
    try apply dec_stable in Hne;
    cbn [fst snd board current_player game_over win_coords hover_col
         set_hover_col];
    (split; [done|]); (split; [done|]); (split; [done|]); (split; [done|]).
  - split; [done|]. split; [by intros c Hc; apply Hunder|].
    intros _. split; [done|]. intros Heq. by destruct Hne.
  - split; [done|]. rewrite <- Hne. split; [by intros c Hc; apply Hunder|done].
  - split; [done|]. split; [done|].
    intros _. split; [done|]. intros Heq. by destruct Hne.
  - split; [done|]. rewrite Hne. by split.
Qed.

End ConnectFourRules.

(** ** Tic-Tac-Toe: the rules of the game *)

Module TicTacToeRules.
Import TicTacToe.

Implicit Types (b : list (list (option mark))) (m : mark) (self : game).

(** *** The check for a winner *)

Lemma mark_eqb_eq (m m' : mark) : mark_eqb m m' = true ↔ m = m'.
Proof. by destruct m, m'. Qed.

Lemma line_owner_spec b l m :
  line_owner b l = Some m ↔ l ≠ [] ∧ line_of b m l.
Proof.
  destruct l as [|[r0 c0] l]; cbn [line_owner].
  { split; [done|]. by intros [? _]. }
  assert (line_of b m ((r0, c0) :: l) → get b r0 c0 = Some m) as Hhead.
  { intros Hline. apply (Hline (r0, c0)). left. }
  destruct (get b r0 c0) as [m0|] eqn:Hfirst.
  - destruct (forallb _ _) eqn:Hall.
    + rewrite forallb_forall in Hall. split.
      * intros [= <-]. split; [done|]. intros rc Hrc%list_elem_of_In.
        specialize (Hall rc Hrc). destruct (get b rc.1 rc.2); [|done].
        by apply mark_eqb_eq in Hall as ->.
      * by intros [_ ->%Hhead].
    + split; [done|]. intros [_ Hline].
      apply not_true_iff_false in Hall. destruct Hall.
      apply forallb_forall. intros rc Hrc%list_elem_of_In.
      rewrite (Hline rc Hrc).
      apply Hhead in Hline as [= ->]. by apply mark_eqb_eq.
  - split; [done|]. by intros [_ ?%Hhead].
Qed.

Lemma first_owned_Some b ls m coords :
  first_owned b ls = (Some m, coords) →
  coords ∈ ls ∧ line_owner b coords = Some m.
Proof.
  induction ls as [|l ls IH]; cbn [first_owned]; [done|].
  destruct (line_owner b l) as [m'|] eqn:Hl.
  - intros [= -> ->]. split; [left|done].
  - intros [Hin Hown]%IH. split; [by right|done].
Qed.

Lemma first_owned_None b ls coords :
  first_owned b ls = (None, coords) →
  coords = [] ∧ ∀ l, l ∈ ls → line_owner b l = None.
Proof.
  induction ls as [|l ls IH]; cbn [first_owned].
  - intros [= <-]. split; [done|]. intros l Hl. by apply elem_of_nil in Hl.
  - destruct (line_owner b l) as [m'|] eqn:Hl; [done|].
    intros [-> Hall]%IH. split; [done|].
    intros l' [->|Hin]%elem_of_cons; auto.
Qed.

(** The lines that [_check_winner] tests are the eight lines of the game,
    rows first, then columns, then the two diagonals. *)
Lemma lines_eight : lines = eight_lines.
Proof. reflexivity. Qed.

Lemma lines_nonempty l : l ∈ lines → l ≠ [].
Proof.
  intros Hl ->. vm_compute in Hl.
  repeat (apply elem_of_cons in Hl as [Hl|Hl]; [done|]).
  by apply elem_of_nil in Hl.
Qed.

Lemma check_winner_None self :
  (∃ coords, _check_winner self = (None, coords))
  ↔ ∀ m, ¬ has_line (board self) m.
Proof.
  unfold _check_winner. split.
  - intros (coords & [_ Hall]%first_owned_None) m (l & Hl & Hline).
    specialize (Hall l Hl).
    assert (line_owner (board self) l = Some m) as Hown
      by (apply line_owner_spec; split; [by apply lines_nonempty|done]).
    congruence.
  - intros Hnone.
    destruct (first_owned (board self) lines) as [[m|] coords] eqn:Hfirst;
      [|by eexists].
    apply first_owned_Some in Hfirst as [Hin [_ Hline]%line_owner_spec].
    destruct (Hnone m). by exists coords.
Qed.

(** X9: [_check_winner] reports a winner exactly when some row, column or
    diagonal holds three equal markers.  The winner it reports holds every
    square of the line it returns, which is one of the eight lines; and
    when it reports none it returns no coordinates. *)
Theorem check_winner_iff_three_in_a_row self :
  (∀ m coords,
     _check_winner self = (Some m, coords) →
     coords ∈ eight_lines ∧ line_of (board self) m coords)
  ∧ ((∃ m coords, _check_winner self = (Some m, coords))
     ↔ ∃ m, has_line (board self) m)
  ∧ (∀ coords, _check_winner self = (None, coords) → coords = []).
Proof.
  split; [|split].
  - intros m coords [Hin [_ Hline]%line_owner_spec]%first_owned_Some. done.
  - split.
    + intros (m & coords & [Hin [_ Hline]%line_owner_spec]%first_owned_Some).
      exists m, coords. done.
    + intros (m & Hline).
      destruct (_check_winner self) as [[w|] coords] eqn:Hcheck;
        [by eexists _, _|].
      assert (∀ m, ¬ has_line (board self) m) as Hnone
        by (apply check_winner_None; by eexists).
      by destruct (Hnone m).
  - intros coords Hcheck. by apply first_owned_None in Hcheck as [-> _].
Qed.

(** *** What a click does to the game *)

Lemma grid_of_nine_wf : board_wf empty_board.
Proof.
  split; [done|]. unfold empty_board.
  apply Forall_replicate. by rewrite length_replicate.
Qed.

Lemma get_empty_grid r c : get empty_board r c = None.
Proof.
  unfold get, grid_get, empty_board.
  destruct (replicate (Z.to_nat SIZE) _ !! Z.to_nat r) as [row|] eqn:Hrow;
    [|done].
  apply lookup_replicate in Hrow as [-> _]. cbn [mbind option_bind].
  destruct (replicate (Z.to_nat SIZE) _ !! Z.to_nat c) as [x|] eqn:Hx; [|done].
  by apply lookup_replicate in Hx as [-> _].
Qed.

(** A click on a free square of a game in progress: the marker is placed,
    and the game is won, drawn or handed to the other player. *)
Lemma on_click_place self row col :
  game_over self = false → get (board self) row col = None →
  let b' := grid_set (board self) row col (Some (current_player self)) in
  let placed := {| board := b'; current_player := current_player self;
                   game_over := false |} in
  (_on_click self row col).1
  = match (_check_winner placed).1 with
    | Some _ => {| board := b'; current_player := current_player self;
                   game_over := true |}
    | None =>
        if _is_board_full placed
        then {| board := b'; current_player := current_player self;
                game_over := true |}
        else {| board := b';
                current_player := other_player (current_player self);
                game_over := false |}
    end.
Proof.
  intros Hon Hfree b' placed. unfold _on_click. rewrite Hon, Hfree.
  cbn [board current_player game_over]. fold b' placed.
  destruct (_check_winner placed) as [[w|] coords]; cbn [fst]; [done|].
  by destruct (_is_board_full placed).
Qed.

(** A click that places nothing leaves the state as it is. *)
Lemma on_click_ignored self row col :
  game_over self = true ∨ get (board self) row col ≠ None →
  _on_click self row col = (self, []).
Proof.
  intros Hignored. unfold _on_click.
  destruct (game_over self); [done|].
  destruct (get (board self) row col); [done|]. by destruct Hignored.
Qed.

Lemma lines_on_board l rc :
  l ∈ lines → rc ∈ l → 0 ≤ rc.1 < SIZE ∧ 0 ≤ rc.2 < SIZE.
Proof.
  assert (Forall (Forall (λ rc : coord, 0 ≤ rc.1 < SIZE ∧ 0 ≤ rc.2 < SIZE))
            lines) as Hall.
  { vm_compute. repeat constructor; discriminate. }
  intros Hl Hrc. rewrite Forall_forall in Hall. specialize (Hall l Hl).
  rewrite Forall_forall in Hall. by apply Hall.
Qed.

Lemma is_board_full_spec self :
  _is_board_full self = true
  ↔ ∀ r c, 0 ≤ r < SIZE → 0 ≤ c < SIZE → get (board self) r c ≠ None.
Proof.
  unfold _is_board_full. rewrite forallb_forall. split.
  - intros Hfull r c Hr%ConnectFourFacts.in_py_range
      Hc%ConnectFourFacts.in_py_range.
    specialize (Hfull r Hr). rewrite forallb_forall in Hfull.
    specialize (Hfull c Hc). by apply bool_decide_eq_true in Hfull.
  - intros Hfull r Hr%ConnectFourFacts.in_py_range.
    apply forallb_forall. intros c Hc%ConnectFourFacts.in_py_range.
    by apply bool_decide_eq_true, Hfull.
Qed.

(** After a marker is placed on a free square, a line is either a line of
    the player who placed it or a line that was there before. *)
Lemma has_line_placed b row col p m :
  board_wf b → 0 ≤ row < SIZE → 0 ≤ col < SIZE →
  has_line (grid_set b row col (Some p)) m →
  m = p ∨ has_line b m.
Proof.
  intros Hwf Hrow Hcol (l & Hl & Hline).
  destruct (decide ((row, col) ∈ l)) as [Hin|Hout].
  - left. specialize (Hline _ Hin). cbn [fst snd] in Hline.
    unfold get in Hline.
    rewrite (grid_get_set_eq None SIZE SIZE) in Hline by done. congruence.
  - right. exists l. split; [done|]. intros rc Hrc.
    destruct (lines_on_board l rc Hl Hrc) as [Hr Hc].
    rewrite <- (Hline rc Hrc). unfold get. symmetry.
    apply grid_get_set_ne; [lia..|]. intros Heq. apply Hout.
    by rewrite Heq, <- surjective_pairing.
Qed.

Lemma fresh_game_settled : settled init.
Proof.
  split; [|split]; [|done|by vm_compute].
  intros m (l & Hl & Hline).
  destruct l as [|rc l]; [by apply lines_nonempty in Hl|].
  specialize (Hline rc ltac:(left)). by rewrite get_empty_grid in Hline.
Qed.

Lemma handle_settled self e :
  board_wf (board self) → on_board e → settled self →
  board_wf (board (handle self e)) ∧ settled (handle self e).
Proof.
  intros Hwf He Hinv. destruct e as [row col|char|]; cbn [handle].
  - destruct He as [Hrow Hcol].
    destruct (game_over self) eqn:Hon.
    { by rewrite on_click_ignored by (by left). }
    destruct (get (board self) row col) as [m0|] eqn:Hcell.
    { rewrite on_click_ignored; [done|]. right. by rewrite Hcell. }
    rewrite on_click_place by done. cbv zeta.
    set (b' := grid_set (board self) row col (Some (current_player self))).
    set (placed := {| board := b'; current_player := current_player self;
                      game_over := false |}).
    assert (board_wf b') as Hwf' by by apply grid_wf_set.
    destruct Hinv as (Hlines & _ & _).
    assert (∀ m, has_line b' m → m = current_player self) as Hmover.
    { intros m Hm. apply has_line_placed in Hm as [->|Hold]; [done| |done..].
      apply Hlines in Hold as [? _]. congruence. }
    destruct (_check_winner placed) as [[w|] coords] eqn:Hcheck; cbn [fst].
    + split; [done|].
      apply first_owned_Some in Hcheck as [Hin [_ Hline]%line_owner_spec].
      assert (has_line b' w) as Hw by (by exists coords).
      pose proof (Hmover w Hw) as ->.
      split; [|split]; [|by left|done].
      intros m Hm%Hmover. done.
    + assert (∀ m, ¬ has_line b' m) as Hnone.
      { apply (check_winner_None placed). by eexists. }
      destruct (_is_board_full placed) eqn:Hfull.
      * split; [done|]. split; [|split]; [|by right|done].
        intros m Hm. by destruct (Hnone m).
      * split; [done|]. split; [|split]; [|done|done].
        intros m Hm. by destruct (Hnone m).
  - unfold _on_key. destruct (is_reset_key char); [|done].
    split; [apply grid_of_nine_wf|apply fresh_game_settled].
  - split; [apply grid_of_nine_wf|apply fresh_game_settled].
Qed.

Lemma run_settled es :
  ∀ self,
    board_wf (board self) → Forall on_board es → settled self →
    board_wf (board (run self es)) ∧ settled (run self es).
Proof.
  induction es as [|e es IH]; intros self Hwf Hes Hinv; [done|].
  apply Forall_cons in Hes as [He Hes].
  destruct (handle_settled self e Hwf He Hinv) as [Hwf' Hinv'].
  by apply IH.
Qed.

Lemma reachable_game_settled self :
  reachable self → board_wf (board self) ∧ settled self.
Proof.
  intros (es & Hes & <-).
  apply run_settled; [apply grid_of_nine_wf|done|apply fresh_game_settled].
Qed.

(** X10: in every state the event loop reaches, the game is over exactly
    when a player has three in a row or every square holds a marker; and
    whoever has three in a row is the current player, who made the last
    move: the other player never has a line. *)
Theorem game_over_iff_line_or_full self :
  reachable self →
  (game_over self = true
   ↔ (∃ m, has_line (board self) m)
     ∨ ∀ r c, 0 ≤ r < SIZE → 0 ≤ c < SIZE → get (board self) r c ≠ None)
  ∧ (∀ m, has_line (board self) m → m = current_player self).
Proof.
  intros [_ (Hlines & Hover & Hon)]%reachable_game_settled.
  rewrite <- is_board_full_spec. split.
  - split.
    + intros [Hline|Hfull]%Hover; [left; by eexists|by right].
    + intros [[m [Hm _]%Hlines]|Hfull]; [done|].
      destruct (game_over self); [done|]. rewrite Hon in Hfull; done.
  - by intros m [_ Hm]%Hlines.
Qed.

Lemma game_over_iff_line_or_full_witness :
  (game_over top_row_game = true
   ↔ (∃ m, has_line (board top_row_game) m)
     ∨ ∀ r c, 0 ≤ r < SIZE → 0 ≤ c < SIZE
              → get (board top_row_game) r c ≠ None)
  ∧ (∀ m, has_line (board top_row_game) m → m = current_player top_row_game).
Proof.
  apply (game_over_iff_line_or_full top_row_game).
  exists (clicks [(0, 0); (1, 0); (0, 1); (1, 1); (0, 2)]).
  split; [|reflexivity]. vm_compute. repeat constructor; discriminate.
Defined.

(** *** Turns and markers *)

Lemma other_mark_other m : other_player (other_player m) = m.
Proof. by destruct m. Qed.

(** A marker placed: the board after it and the player who placed it. *)
Lemma on_click_place_fields self row col :
  game_over self = false → get (board self) row col = None →
  board (_on_click self row col).1
  = grid_set (board self) row col (Some (current_player self))
  ∧ last_mover (_on_click self row col).1 = current_player self.
Proof.
  intros Hon Hfree. rewrite on_click_place by done. cbv zeta.
  destruct (_check_winner _).1; [done|].
  destruct (_is_board_full _); [done|].
  unfold last_mover. cbn. by rewrite other_mark_other.
Qed.

Lemma marks_placed b row col p q :
  board_wf b → 0 ≤ row < SIZE → 0 ≤ col < SIZE →
  get b row col = None →
  marks q (grid_set b row col (Some p))
  = (marks q b + (if mark_eqb p q then 1 else 0))%nat.
Proof.
  intros Hwf Hrow Hcol Hfree.
  pose proof (grid_count_set (is_mark q) None SIZE SIZE b row col (Some p)
                Hwf Hrow Hcol) as Hcount.
  change (grid_get None b row col) with (get b row col) in Hcount.
  rewrite Hfree in Hcount. unfold marks. cbn [is_mark] in Hcount. lia.
Qed.

Lemma handle_marks self e :
  board_wf (board self) → on_board e →
  marks X (board self)
  = (marks O (board self)
     + match last_mover self with X => 1 | O => 0 end)%nat →
  marks X (board (handle self e))
  = (marks O (board (handle self e))
     + match last_mover (handle self e) with X => 1 | O => 0 end)%nat.
Proof.
  intros Hwf He Hcount. destruct e as [row col|char|]; cbn [handle].
  - destruct He as [Hrow Hcol].
    destruct (game_over self) eqn:Hon.
    { by rewrite on_click_ignored by (by left). }
    destruct (get (board self) row col) as [m0|] eqn:Hcell.
    { rewrite on_click_ignored; [done|]. right. by rewrite Hcell. }
    destruct (on_click_place_fields self row col Hon Hcell) as [-> ->].
    rewrite !marks_placed by done.
    unfold last_mover in Hcount. rewrite Hon in Hcount.
    destruct (current_player self); cbn in *; lia.
  - unfold _on_key. by destruct (is_reset_key char).
  - done.
Qed.

(** X11: the players take turns, X first.  In every state the event loop
    reaches, X has as many markers on the board as O, and one more when X
    moved last; so, while the game is on, the two have equally many when
    it is X's turn and X has one more when it is O's. *)
Theorem marks_follow_turns self :
  reachable self →
  marks X (board self)
  = (marks O (board self)
     + match last_mover self with X => 1 | O => 0 end)%nat
  ∧ (game_over self = false →
     match current_player self with
     | X => marks X (board self) = marks O (board self)
     | O => marks X (board self) = S (marks O (board self))
     end).
Proof.
  intros (es & Hes & <-).
  assert (∀ es self,
            board_wf (board self) → settled self → Forall on_board es →
            marks X (board self)
            = (marks O (board self)
               + match last_mover self with X => 1 | O => 0 end)%nat →
            marks X (board (run self es))
            = (marks O (board (run self es))
               + match last_mover (run self es) with X => 1 | O => 0 end)%nat)
    as Hall.
  { clear. induction es as [|e es IH]; intros self Hwf Hinv Hes Hcount;
      [done|].
    apply Forall_cons in Hes as [He Hes].
    destruct (handle_settled self e Hwf He Hinv) as [Hwf' Hinv'].
    apply IH; [done..|]. by apply handle_marks. }
  assert (marks X (board (run init es))
          = (marks O (board (run init es))
             + match last_mover (run init es) with X => 1 | O => 0 end)%nat)
    as Hcount
    by (apply Hall; [apply grid_of_nine_wf|apply fresh_game_settled|done|done]).
  split; [done|]. intros Hon. unfold last_mover in Hcount.
  rewrite Hon in Hcount.
  destruct (current_player (run init es)); cbn in Hcount; lia.
Qed.

Lemma marks_follow_turns_witness :
  marks X (board top_row_game)
  = (marks O (board top_row_game)
     + match last_mover top_row_game with X => 1 | O => 0 end)%nat
  ∧ (game_over top_row_game = false →
     match current_player top_row_game with
     | X => marks X (board top_row_game) = marks O (board top_row_game)
     | O => marks X (board top_row_game) = S (marks O (board top_row_game))
     end).
Proof.
  apply (marks_follow_turns top_row_game).
  exists (clicks [(0, 0); (1, 0); (0, 1); (1, 1); (0, 2)]).
  split; [|reflexivity]. vm_compute. repeat constructor; discriminate.
Defined.

(** *** After the game, and what stays on the board *)

Lemma handle_finished self e :
  game_over self = true → is_reset e = false → handle self e = self.
Proof.
  intros Hover Hreset. destruct e as [row col|char|]; cbn [handle is_reset] in *.
  - by rewrite on_click_ignored by (by left).
  - unfold _on_key. by rewrite Hreset.
  - done.
Qed.

(** X12: a finished game is frozen.  Once the game is over, whatever
    clicks and keys follow, as long as none is a reset (the button or the
    R key), the state stays exactly what it was; a reset, from any state,
    gives the fresh game. *)
Theorem finished_game_frozen self es :
  game_over self = true →
  Forall (λ e, is_reset e = false) es →
  run self es = self
  ∧ ∀ e, is_reset e = true → handle self e = init.
Proof.
  intros Hover Hes. split.
  - induction Hes as [|e es He _ IH]; [done|].
    cbn [run]. by rewrite handle_finished.
  - intros e He. destruct e as [row col|char|]; cbn [handle is_reset] in *;
      [done| |done].
    unfold _on_key. by rewrite He.
Qed.

Lemma finished_game_frozen_witness :
  run top_row_game [Click 2 2; Key "x"; Click 0 0] = top_row_game
  ∧ ∀ e, is_reset e = true → handle top_row_game e = init.
Proof.
  apply (finished_game_frozen top_row_game [Click 2 2; Key "x"; Click 0 0]).
  - reflexivity.
  - repeat constructor.
Defined.

Lemma handle_cell_kept self e r c m :
  board_wf (board self) → on_board e → is_reset e = false →
  0 ≤ r → 0 ≤ c →
  get (board self) r c = Some m → get (board (handle self e)) r c = Some m.
Proof.
  intros Hwf He Hreset Hr Hc Hcell.
  destruct e as [row col|char|]; cbn [handle is_reset] in *; [| |done].
  - destruct He as [Hrow Hcol]. destruct (game_over self) eqn:Hon.
    { by rewrite on_click_ignored by (by left). }
    destruct (get (board self) row col) as [m0|] eqn:Hfree.
    { rewrite on_click_ignored; [done|]. right. by rewrite Hfree. }
    destruct (on_click_place_fields self row col Hon Hfree) as [-> _].
    rewrite <- Hcell. unfold get. apply grid_get_set_ne; [lia..|].
    intros [= <- <-]. unfold get in *. congruence.
  - unfold _on_key. by rewrite Hreset.
Qed.

(** X13: markers stay.  Over any sequence of clicks on the grid and keys
    that holds no reset, a square that holds a marker keeps that marker:
    no move overwrites or removes it. *)
Theorem marker_kept self es r c m :
  board_wf (board self) →
  Forall on_board es → Forall (λ e, is_reset e = false) es →
  0 ≤ r → 0 ≤ c →
  get (board self) r c = Some m →
  get (board (run self es)) r c = Some m.
Proof.
  intros Hwf Hes Hresets Hr Hc. revert self Hwf.
  induction es as [|e es IH]; intros self Hwf Hcell; [done|].
  apply Forall_cons in Hes as [He Hes].
  apply Forall_cons in Hresets as [Hreset Hresets].
  cbn [run]. apply IH; [done..| |by apply handle_cell_kept].
  destruct e as [row col|char|]; cbn [handle is_reset] in *; [| |done].
  - destruct (game_over self) eqn:Hon.
    { by rewrite on_click_ignored by (by left). }
    destruct (get (board self) row col) as [m0|] eqn:Hfree.
    { rewrite on_click_ignored; [done|]. right. by rewrite Hfree. }
    destruct (on_click_place_fields self row col Hon Hfree) as [-> _].
    by apply grid_wf_set.
  - unfold _on_key. by rewrite Hreset.
Qed.

Lemma marker_kept_witness :
  get (board (run (handle init (Click 1 1))
                [Click 1 1; Click 0 0; Key "q"; Click 2 2])) 1 1
  = Some X.
Proof.
  apply (marker_kept (handle init (Click 1 1))
           [Click 1 1; Click 0 0; Key "q"; Click 2 2] 1 1 X).
  - split; [reflexivity|]. vm_compute. repeat constructor.
  - vm_compute. repeat constructor; discriminate.
  - repeat constructor.
  - lia.
  - lia.
  - reflexivity.
Defined.

End TicTacToeRules.

(** ** The calculator: what the buttons compute *)

Module CalculatorRules.
Import Calculator CalculatorFacts.

Section WithFloat.
Context `{PyFloat}.

Implicit Types (self : calc) (o : operator) (s : symbol).

(** *** Exceptions *)

Lemma py_float_raises text e : py_float text = Raise e → e = ValueError.
Proof. unfold py_float. destruct (float_of_string text); [done|]. by intros [= <-]. Qed.

Lemma calculate_raises self e :
  operation self ≠ None →
  _calculate self = Raise e →
  e = ValueError ∧ float_of_string (current_input self) = None.
Proof.
  intros Hop. unfold _calculate, calculate_try, py_float, py_div.
  destruct (float_of_string (current_input self)) as [x|];
    cbn [mbind result_bind]; [|by intros [= <-]].
  destruct (operation self) as [[]|]; cbn [mbind result_bind]; try done.
  destruct (is_zero x); done.
Qed.

(** A press that raises: the exception is [ValueError], the button is an
    operator or [=], and [float] cannot read the display. *)
Lemma button_raises self s e :
  _on_button_click self s = Raise e →
  e = ValueError
  ∧ float_of_string (current_input self) = None
  ∧ (s = Equals ∨ ∃ o, s = Op o).
Proof.
  destruct s as [d|o| |]; cbn [_on_button_click].
  - by destruct (_ || _).
  - intros Hraise. split_and!; [| |right; by eexists].
    + destruct (bool_decide (operation self ≠ None) && negb (reset_screen self))
        eqn:Hcalc.
      * apply andb_true_iff in Hcalc as [Hop%bool_decide_eq_true _].
        destruct (_calculate self) as [self'|e'] eqn:Hcalc;
          cbn [mbind result_bind] in Hraise.
        -- destruct (py_float (current_input self)) eqn:Hfloat;
             cbn [mbind result_bind] in Hraise; [done|].
           injection Hraise as <-. by eapply py_float_raises.
        -- injection Hraise as <-. by eapply calculate_raises.
      * cbn [mbind result_bind] in Hraise.
        destruct (py_float (current_input self)) eqn:Hfloat;
          cbn [mbind result_bind] in Hraise; [done|].
        injection Hraise as <-. by eapply py_float_raises.
    + destruct (bool_decide (operation self ≠ None) && negb (reset_screen self))
        eqn:Hcalc.
      * apply andb_true_iff in Hcalc as [Hop%bool_decide_eq_true _].
        destruct (_calculate self) as [self'|e'] eqn:Hcalc;
          cbn [mbind result_bind] in Hraise.
        -- unfold py_float in Hraise.
           by destruct (float_of_string (current_input self)).
        -- by eapply calculate_raises.
      * cbn [mbind result_bind] in Hraise. unfold py_float in Hraise.
        by destruct (float_of_string (current_input self)).
  - done.
  - case_bool_decide as Hop; [|done].
    destruct (_calculate self) as [self'|e'] eqn:Hcalc;
      cbn [mbind result_bind]; [done|].
    intros [= <-]. destruct (calculate_raises self e' Hop Hcalc) as [-> ?].
    split_and!; [done|done|by left].
Qed.

(** X14: whatever the state of the calculator and whatever the buttons
    pressed, the only exception that leaves the button handler is
    [ValueError]: a division by zero never does, and [_calculate] is never
    run without a pending operation.  The digit buttons and [C] never
    raise. *)
Theorem only_ValueError_escapes self ss :
  match presses self ss with
  | Ok _ => True
  | Raise e => e = ValueError
  end
  ∧ (∀ d, ∃ self', _on_button_click self (Digit d) = Ok self')
  ∧ ∃ self', _on_button_click self C = Ok self'.
Proof.
  split; [|split].
  - revert self. induction ss as [|s ss IH]; intros self; [done|].
    cbn [presses].
    destruct (_on_button_click self s) as [self'|e'] eqn:Hpress;
      cbn [mbind result_bind]; [apply IH|].
    by apply button_raises in Hpress as [-> _].
  - intros d. cbn [_on_button_click]. destruct (_ || _); by eexists.
  - by eexists.
Qed.

(** *** What [=] computes *)

Lemma calculate_binop self o y :
  operation self = Some o →
  float_of_string (current_input self) = Some y →
  _calculate self
  = Ok match binop o (to_float (stored_value self)) y with
       | Ok r => {| current_input := str r; operation := Some o;
                    stored_value := Float r; reset_screen := true |}
       | Raise _ => {| current_input := "Error"; operation := Some o;
                       stored_value := stored_value self;
                       reset_screen := true |}
       end.
Proof.
  intros Hop Hparse. unfold _calculate, calculate_try, py_float, binop, py_div.
  rewrite Hparse, Hop. cbn [mbind result_bind].
  destruct o; cbn [mbind result_bind]; try done. by destruct (is_zero y).
Qed.

Lemma equals_press self o y :
  operation self = Some o →
  float_of_string (current_input self) = Some y →
  _on_button_click self Equals
  = Ok (shown (stored_value self) (binop o (to_float (stored_value self)) y)).
Proof.
  intros Hop Hparse. cbn [_on_button_click].
  rewrite (calculate_binop self o y) by done. rewrite Hop.
  rewrite bool_decide_eq_true_2 by done. cbn [mbind result_bind].
  by destruct (binop o (to_float (stored_value self)) y).
Qed.

(** An operator button when an operation is pending and its second
    operand has been typed: the pending operation is done and shown, and
    the operand kept for the new operation is the number that was typed. *)
Lemma operator_press_pending self o o' y :
  operation self = Some o → reset_screen self = false →
  float_of_string (current_input self) = Some y →
  _on_button_click self (Op o')
  = Ok {| current_input :=
            match binop o (to_float (stored_value self)) y with
            | Ok r => str r
            | Raise _ => "Error"%string
            end;
          operation := Some o'; stored_value := Float y;
          reset_screen := true |}.
Proof.
  intros Hop Hreset Hparse. cbn [_on_button_click].
  rewrite (calculate_binop self o y) by done. rewrite Hop, Hreset.
  rewrite bool_decide_eq_true_2 by done. cbn [andb negb mbind result_bind].
  unfold py_float. rewrite Hparse. cbn [mbind result_bind].
  by destruct (binop o (to_float (stored_value self)) y).
Qed.

Lemma presses_app self ss ss' :
  presses self (ss ++ ss') = presses self ss ≫= λ self', presses self' ss'.
Proof.
  revert self. induction ss as [|s ss IH]; intros self; [done|].
  cbn [app presses]. destruct (_on_button_click self s); [apply IH|done].
Qed.

(** *** Typing a number *)

Lemma append_assoc (a b c : string) : (a ++ (b ++ c) = (a ++ b) ++ c)%string.
Proof. induction a as [|x a IH]; [done|]. cbn. by rewrite IH. Qed.

Lemma append_nil_r (a : string) : (a ++ EmptyString)%string = a.
Proof. induction a as [|x a IH]; [done|]. cbn. by rewrite IH. Qed.

Lemma append_digit_long (a : string) d :
  a ≠ EmptyString →
  (a ++ String d EmptyString)%string ≠ EmptyString
  ∧ (a ++ String d EmptyString)%string ≠ "0"%string.
Proof. destruct a as [|x [|y a]]; done. Qed.

(** More digits typed after the first ones are appended to the display. *)
Lemma digits_append text :
  ∀ self,
    reset_screen self = false →
    current_input self ≠ EmptyString → current_input self ≠ "0"%string →
    presses self (digits_of text)
    = Ok {| current_input := current_input self ++ text;
            operation := operation self; stored_value := stored_value self;
            reset_screen := false |}.
Proof.
  induction text as [|d text IH]; intros self Hreset Hsome Hshow.
  - cbn [digits_of presses]. rewrite append_nil_r, <- Hreset. by destruct self.
  - cbn [digits_of presses _on_button_click]. rewrite Hreset, orb_false_r.
    apply String.eqb_neq in Hshow as ->. cbn [mbind result_bind].
    destruct (append_digit_long (current_input self) d Hsome) as [Hsome' Hshow'].
    rewrite IH by done. cbn [current_input operation stored_value].
    by rewrite <- append_assoc.
Qed.

Lemma presses_typed self text (rest : list symbol) :
  current_input self = "0"%string ∨ reset_screen self = true →
  no_leading_zero text = true →
  presses self (digits_of text ++ rest)
  = presses {| current_input := text; operation := operation self;
               stored_value := stored_value self; reset_screen := false |}
      rest.
Proof.
  intros Hfresh Htext. rewrite presses_app.
  assert (presses self (digits_of text)
          = Ok {| current_input := text; operation := operation self;
                  stored_value := stored_value self; reset_screen := false |})
    as ->; [|done].
  destruct text as [|d text]; [done|].
  cbn [digits_of presses _on_button_click].
  replace (String.eqb (current_input self) "0" || reset_screen self) with true.
  2:{ destruct Hfresh as [-> | ->]; [done|by rewrite orb_true_r]. }
  cbn [mbind result_bind]. destruct text as [|d' text]; [done|].
  rewrite digits_append; [done|done|done|].
  cbn [current_input]. cbn [no_leading_zero] in Htext.
  apply negb_true_iff, Ascii.eqb_neq in Htext. congruence.
Qed.

(** X15: typing a number shows it.  When the display holds ["0"] or is
    about to be replaced (after an operator, [=] or an error), pressing
    the digits of a number written without a leading zero leaves exactly
    that number on the display, and nothing else changes. *)
Theorem typed_number_shown self text :
  current_input self = "0"%string ∨ reset_screen self = true →
  no_leading_zero text = true →
  presses self (digits_of text)
  = Ok {| current_input := text; operation := operation self;
          stored_value := stored_value self; reset_screen := false |}.
Proof.
  intros Hfresh Htext.
  rewrite <- (app_nil_r (digits_of text)). by rewrite presses_typed.
Qed.

(** *** Operations *)

(** X16: a number, an operator, a number and [=].  With [x] on the display
    and no calculation pending on it, pressing an operator, the digits of
    a number that [float] reads as [y], and [=] shows [str] of [x o y] and
    stores it, with no operation pending any more; a division by a zero
    [y] shows ["Error"] instead and keeps [x] stored. *)
Theorem binary_operation self o x text y :
  operation self = None ∨ reset_screen self = true →
  float_of_string (current_input self) = Some x →
  no_leading_zero text = true →
  float_of_string text = Some y →
  presses self (Op o :: digits_of text ++ [Equals])
  = Ok (shown (Float x) (binop o x y)).
Proof.
  intros Hidle Hx Htext Hy.
  rewrite presses_cons, (operator_press self o x) by done.
  cbn [mbind result_bind]. rewrite presses_typed by (done || by right).
  rewrite presses_cons, (equals_press _ o y) by done.
  done.
Qed.

(** X17: no result is carried along a chain.  In [x o1 y o2 z =], pressing
    the second operator shows the result of [x o1 y], but the number kept
    for the second operation is [y], the number typed last: the chain ends
    on [y o2 z], not on [(x o1 y) o2 z]. *)
Theorem chained_operation self o1 o2 x text1 y text2 z :
  operation self = None ∨ reset_screen self = true →
  float_of_string (current_input self) = Some x →
  no_leading_zero text1 = true → float_of_string text1 = Some y →
  no_leading_zero text2 = true → float_of_string text2 = Some z →
  presses self (Op o1 :: digits_of text1 ++ [Op o2])
  = Ok {| current_input := match binop o1 x y with
                           | Ok r => str r
                           | Raise _ => "Error"%string
                           end;
          operation := Some o2; stored_value := Float y;
          reset_screen := true |}
  ∧ presses self (Op o1 :: digits_of text1 ++ Op o2 :: digits_of text2
                    ++ [Equals])
    = Ok (shown (Float y) (binop o2 y z)).
Proof.
  intros Hidle Hx Htext1 Hy Htext2 Hz.
  rewrite !presses_cons, !(operator_press self o1 x) by done.
  cbn [mbind result_bind]. rewrite !presses_typed by (done || by right).
  rewrite !presses_cons, !(operator_press_pending _ o1 o2 y) by done.
  cbn [mbind result_bind to_float stored_value]. split; [done|].
  rewrite presses_typed by (done || by right).
  by rewrite presses_cons, (equals_press _ o2 z) by done.
Qed.

(** X18: [=] right after an operator takes the number on the display for
    both operands: with [x] on the display and no calculation pending on
    it, pressing an operator and then [=] shows [str] of [x o x], and
    ["Error"] when that is a division of a zero by itself. *)
Theorem operator_then_equals self o x :
  operation self = None ∨ reset_screen self = true →
  float_of_string (current_input self) = Some x →
  presses self [Op o; Equals] = Ok (shown (Float x) (binop o x x)).
Proof.
  intros Hidle Hx.
  rewrite presses_cons, (operator_press self o x) by done.
  cbn [mbind result_bind].
  by rewrite presses_cons, (equals_press _ o x) by done.
Qed.

(** X19: [C] always brings the calculator back.  From any state, also one
    that shows ["Error"], [C] returns with ["0"] on the display, nothing
    stored and no operation pending, and after it no button raises. *)
Theorem clear_recovers self :
  ∃ self',
    _on_button_click self C = Ok self'
    ∧ current_input self' = "0"%string
    ∧ operation self' = None
    ∧ stored_value self' = Int 0
    ∧ ∀ s, ∃ self'', _on_button_click self' s = Ok self''.
Proof.
  eexists. split; [reflexivity|]. split; [done|]. split; [done|].
  split; [done|]. intros [d|o| |].
  - cbn [_on_button_click]. destruct (_ || _); by eexists.
  - destruct float_of_string_0 as (z & Hz & _).
    rewrite (operator_press _ o z); [by eexists|by left|done].
  - by eexists.
  - by eexists.
Qed.

(** *** When the handler raises *)





Section WithLaws.
(** What [float] reads: the numbers that are typed, and what [str] prints. *)
Hypothesis float_of_digits :
  ∀ text, digit_string text = true → is_Some (float_of_string text).
Hypothesis float_of_str : ∀ x, is_Some (float_of_string (str x)).

Lemma well_shown_init : well_shown init.
Proof.
  split; [|done]. left. apply float_of_digits. done.
Qed.






End WithLaws.

End WithFloat.

(** *** The integer model of the floats *)

#[local] Existing Instance integer_floats.





Lemma only_ValueError_escapes_witness :
  match presses init [Op Div; Equals; Op Add] with
  | Ok _ => True
  | Raise e => e = ValueError
  end
  ∧ (∀ d, ∃ self', _on_button_click init (Digit d) = Ok self')
  ∧ ∃ self', _on_button_click init C = Ok self'.
Proof.
  apply (only_ValueError_escapes init [Op Div; Equals; Op Add]).
Defined.

Lemma typed_number_shown_witness :
  presses init (digits_of "120")
  = Ok {| current_input := "120"; operation := operation init;
          stored_value := stored_value init; reset_screen := false |}.
Proof.
  apply (typed_number_shown init "120").
  - left. reflexivity.
  - reflexivity.
Defined.

Lemma binary_operation_witness :
  presses init (Op Sub :: digits_of "42" ++ [Equals])
  = Ok (shown (@Float integer_floats 0) (@binop integer_floats Sub 0 42)).
Proof.
  apply (@binary_operation integer_floats init Sub 0 "42" 42).
  - left. reflexivity.
  - reflexivity.
  - reflexivity.
  - reflexivity.
Defined.

Lemma chained_operation_witness :
  presses init (Op Add :: digits_of "3" ++ [Op Mul])
  = Ok {| current_input := match @binop integer_floats Add 0 3 with
                           | Ok r => str r
                           | Raise _ => "Error"%string
                           end;
          operation := Some Mul; stored_value := @Float integer_floats 3;
          reset_screen := true |}
  ∧ presses init (Op Add :: digits_of "3" ++ Op Mul :: digits_of "4"
                    ++ [Equals])
    = Ok (shown (@Float integer_floats 3) (@binop integer_floats Mul 3 4)).
Proof.
  apply (@chained_operation integer_floats init Add Mul 0 "3" 3 "4" 4);
    solve [reflexivity | left; reflexivity].
Defined.

Lemma operator_then_equals_witness :
  presses init [Op Add; Equals]
  = Ok (shown (@Float integer_floats 0) (@binop integer_floats Add 0 0)).
Proof.
  apply (@operator_then_equals integer_floats init Add 0).
  - left. reflexivity.
  - reflexivity.
Defined.

Lemma clear_recovers_witness :
  ∃ self',
    _on_button_click init C = Ok self'
    ∧ current_input self' = "0"%string
    ∧ operation self' = None
    ∧ stored_value self' = Int 0
    ∧ ∀ s, ∃ self'', _on_button_click self' s = Ok self''.
Proof. apply (clear_recovers init). Defined.


End CalculatorRules.

(** ** Connect Four: what is drawn *)

Module ConnectFourCanvas.
Import ConnectFour ConnectFourFacts ConnectFourRules.

Implicit Types (b : list (list cell)) (p : color) (self : game).

Lemma in_draw_board self item :
  Create item ∈ _draw_board self
  ↔ In item (draw_hover self)
    ∨ (∃ row col, 0 ≤ row < ROWS ∧ 0 ≤ col < COLS
                  ∧ In item (draw_cell self row col))
    ∨ ∃ rc, In rc (win_coords self) ∧ item = win_oval rc.
Proof.
  unfold _draw_board. rewrite list_elem_of_In. cbn [In].
  rewrite in_app_iff, in_map_iff. cbn [In]. split.
  - intros [?|[(item' & [= ->] & Hin)|[?|[]]]]; try done.
    apply in_app_iff in Hin as [Hin|Hin]; [by left|right].
    apply in_app_iff in Hin as [Hin|Hin]; [left|right].
    + apply in_flat_map in Hin as (row & Hrow%in_py_range & Hin).
      apply in_flat_map in Hin as (col & Hcol%in_py_range & Hin).
      by exists row, col.
    + apply in_map_iff in Hin as (rc & <- & Hin). by exists rc.
  - intros Hin. right. left. exists item. split; [done|].
    rewrite !in_app_iff.
    destruct Hin as [Hin|[(row & col & Hrow & Hcol & Hin)|(rc & Hin & ->)]].
    + by left.
    + right. left. apply in_flat_map. exists row.
      split; [by apply in_py_range|]. apply in_flat_map. exists col.
      split; [by apply in_py_range|done].
    + right. right. by apply in_map.
Qed.

Lemma color_value_inj p q : color_value p = color_value q → p = q.
Proof. by destruct p, q. Qed.

(** X21: the board drawn is the board.  For every cell of the board,
    [_draw_board] draws the white slot of the cell, and it draws a disc in
    the cell, in a colour, exactly when the cell holds a disc of that
    colour. *)
Theorem discs_drawn_are_discs_on_board self row col :
  0 ≤ row < ROWS → 0 ≤ col < COLS →
  Create (slot_oval row col) ∈ _draw_board self
  ∧ ∀ p, Create (disc_oval row col p) ∈ _draw_board self
         ↔ get (board self) row col = Some p.
Proof.
  intros Hrow Hcol. split.
  - apply in_draw_board. right. left. exists row, col.
    split; [done|]. split; [done|]. by left.
  - intros p. rewrite in_draw_board. split.
    + intros [Hin|[(row' & col' & Hrow' & Hcol' & Hin)|(rc & _ & Heq)]].
      * unfold draw_hover in Hin. repeat case_match; try done.
        by destruct Hin as [?|[]].
      * unfold draw_cell in Hin. destruct Hin as [Heq|Hin].
        { unfold slot_oval, disc_oval in Heq. injection Heq as _ _ _ _ Hfill _.
          by destruct p. }
        destruct (get (board self) row' col') as [q|] eqn:Hcell; [|done].
        destruct Hin as [Heq|[]]. unfold disc_oval in Heq.
        injection Heq as Hx Hy _ _ Hq _.
        apply color_value_inj in Hq as ->.
        assert (row' = row ∧ col' = col) as [-> ->]
          by (unfold CELL in *; lia).
        done.
      * unfold disc_oval, win_oval in Heq. by injection Heq.
    + intros Hcell. right. left. exists row, col.
      split; [done|]. split; [done|]. unfold draw_cell. rewrite Hcell.
      right. by left.
Qed.

Lemma discs_drawn_are_discs_on_board_witness :
  Create (slot_oval 3 3) ∈ _draw_board crossing
  ∧ ∀ p, Create (disc_oval 3 3 p) ∈ _draw_board crossing
         ↔ get (board crossing) 3 3 = Some p.
Proof.
  apply (discs_drawn_are_discs_on_board crossing 3 3).
  - unfold ROWS. lia.
  - unfold COLS. lia.
Defined.

(** *** Nothing is drawn off the canvas *)

Lemma on_click_hover self x self' out :
  _on_click self x = Some (self', out) → hover_col self' = hover_col self.
Proof.
  intros Hstep. destruct (game_over self) eqn:Hon.
  { unfold _on_click in Hstep. rewrite Hon in Hstep. by injection Hstep as <- _. }
  destruct (decide (0 ≤ x / CELL < COLS)) as [Hcol|Hcol].
  2:{ unfold _on_click in Hstep. rewrite Hon in Hstep.
      replace (negb ((0 <=? x / CELL) && (x / CELL <? COLS))) with true
        in Hstep by lia.
      by injection Hstep as <- _. }
  destruct (drop (board self) (current_player self) (x / CELL))
    as [[b' rc]|] eqn:Hdrop.
  2:{ pose proof (on_click_board self x Hon Hcol) as Hclick.
      rewrite Hdrop, Hstep in Hclick. by injection Hclick as <- _. }
  destruct (on_click_outcome self x b' rc Hon Hcol Hdrop) as (out' & Hclick).
  rewrite Hstep in Hclick. injection Hclick as -> _.
  destruct (checkWin b' rc.1 (x / CELL) (current_player self)); [|done].
  by destruct (_is_board_full (set_board self b')).
Qed.

Lemma on_motion_hover self x h :
  hover_col (_on_motion self x).1 = Some h → 0 ≤ h < COLS.
Proof.
  unfold _on_motion. destruct (game_over self); [done|].
  destruct ((0 <=? x / CELL) && (x / CELL <? COLS)) eqn:Hcol.
  - case_bool_decide as Hne; cbn [fst hover_col set_hover_col].
    + intros [= <-]. lia.
    + try apply dec_stable in Hne. rewrite <- Hne. intros [= <-]. lia.
  - case_bool_decide as Hne; cbn [fst hover_col set_hover_col]; [done|].
    try apply dec_stable in Hne. by rewrite Hne.
Qed.

Lemma reachable_hover self h :
  reachable self → hover_col self = Some h → 0 ≤ h < COLS.
Proof.
  intros [es Hrun]. revert h.
  assert (∀ es self0 self1,
            (∀ h, hover_col self0 = Some h → 0 ≤ h < COLS) →
            run self0 es = Some self1 →
            ∀ h, hover_col self1 = Some h → 0 ≤ h < COLS) as Hall.
  { clear. induction es as [|e es IH]; intros self0 self1 Hinv Hrun;
      cbn [run] in Hrun.
    - by injection Hrun as <-.
    - destruct (handle self0 e) as [[self' out]|] eqn:Hstep; [|done].
      cbn [mbind option_bind] in Hrun. apply (IH self' self1); [|done].
      destruct e as [x|x|char|]; cbn [handle] in Hstep.
      + apply on_click_hover in Hstep. by rewrite Hstep.
      + injection Hstep as Hstep. intros h Hh.
        apply (on_motion_hover self0 x). by rewrite Hstep.
      + injection Hstep as Hstep. unfold _on_key in Hstep.
        destruct (is_reset_key char); injection Hstep as <- _; done.
      + by injection Hstep as <- _. }
  by apply (Hall es init).
Qed.

Lemma reachable_win_coords self rc :
  reachable self → rc ∈ win_coords self → in_bounds rc.1 rc.2 = true.
Proof.
  intros Hinv%reachable_settled Hrc. unfold settled in Hinv.
  destruct (game_over self).
  - destruct Hinv as [[Hnone _]|(row & col & d & _ & Horigin & Hline & _)].
    + rewrite Hnone in Hrc. by apply elem_of_nil in Hrc.
    + pose proof (is_line_owned _ _ _ _ _ _ Hline Horigin rc Hrc) as Hown.
      destruct rc as [r c]. by apply owned_spec in Hown as [? _].
  - destruct Hinv as [Hnone _]. rewrite Hnone in Hrc.
    by apply elem_of_nil in Hrc.
Qed.

(** X22: nothing is drawn off the canvas.  In every state the event loop
    reaches, each rectangle and oval that [_draw_board] creates (the
    column highlight, the slots, the discs and the outlines of the winning
    discs) lies within the canvas of [canvas_w] by [canvas_h] pixels. *)
Theorem shapes_drawn_on_canvas self item :
  reachable self →
  Create item ∈ _draw_board self →
  on_canvas item.
Proof.
  intros Hreach [Hin|[(row & col & Hrow & Hcol & Hin)|(rc & Hin & ->)]]%in_draw_board.
  - unfold draw_hover in Hin.
    destruct (hover_col self) as [h|] eqn:Hh; [|done].
    destruct (negb (game_over self)); [|done]. destruct Hin as [<-|[]].
    pose proof (reachable_hover self h Hreach Hh).
    unfold on_canvas, canvas_w, canvas_h, ROWS, COLS, CELL in *. lia.
  - unfold draw_cell in Hin. destruct Hin as [<-|Hin].
    { unfold on_canvas, slot_oval, canvas_w, canvas_h, SLOT_MARGIN,
        ROWS, COLS, CELL in *. lia. }
    destruct (get (board self) row col) as [q|]; [|done].
    destruct Hin as [<-|[]].
    unfold on_canvas, disc_oval, canvas_w, canvas_h, DISC_MARGIN,
      ROWS, COLS, CELL in *. lia.
  - apply list_elem_of_In in Hin.
    pose proof (reachable_win_coords self rc Hreach Hin) as Hrc.
    unfold on_canvas, win_oval, canvas_w, canvas_h, DISC_MARGIN, in_bounds,
      ROWS, COLS, CELL in *. lia.
Qed.

Lemma shapes_drawn_on_canvas_witness :
  Create (win_oval (3, 3)) ∈ _draw_board crossing ∧ on_canvas (win_oval (3, 3)).
Proof.
  assert (Hin : Create (win_oval (3, 3)) ∈ _draw_board crossing).
  { apply list_elem_of_In. vm_compute.
    repeat first [left; reflexivity | right]. }
  split; [exact Hin|].
  apply (shapes_drawn_on_canvas crossing (win_oval (3, 3))); [|exact Hin].
  exists (clicks crossing_moves). vm_compute. reflexivity.
Defined.

End ConnectFourCanvas.
